(** * wego: the authenticated-session manager of the Wekan client

    A shallow embedding of [client.go], [request.go] and the login code of
    the desertbit/wego package, and the properties of its session manager,
    token broker and request plumbing.

    Go's libraries (context, closer, time, net/http, encoding/json, fmt,
    errors) are not part of the package; the few operations the package
    uses are modelled here next to the code that calls them. *)

From Stdlib Require Import ZArith Ascii String List Lia.
From stdpp Require Import base option gmap strings list fin_maps pretty.

Local Open Scope string_scope.
Local Open Scope Z_scope.

(** ** Go time: instants, durations and the RFC 3339 layout *)

(** The one-character string that holds a double quote. *)
Definition quote : string := String (ascii_of_nat 34) EmptyString.

Module Clock.

(** [time.Duration] is an int64 count of nanoseconds. *)
Definition Duration := Z.
Definition minDuration : Duration := - 2 ^ 63.
Definition maxDuration : Duration := 2 ^ 63 - 1.
Definition Nanosecond : Duration := 1.
Definition Second : Duration := 1000000000.

(** int64 arithmetic wraps around. *)
Definition int64 (z : Z) : Z := (z + 2 ^ 63) mod 2 ^ 64 - 2 ^ 63.
Definition Duration_sub (d e : Duration) : Duration := int64 (d - e).
Definition Duration_mul (n : Z) (d : Duration) : Duration := int64 (n * d).

(** A [time.Time] is an instant; here the nanoseconds since the Unix epoch,
    unbounded. *)
Definition Time := Z.

(** The zero [time.Time{}]: January 1, year 1, 00:00:00 UTC. *)
Definition Time_zero : Time := -62135596800 * 1000000000.

(** [t.Sub(u)]: the difference, saturated to the range of a Duration. *)
Definition Sub (t u : Time) : Duration :=
  if t - u <? minDuration then minDuration
  else if maxDuration <? t - u then maxDuration
  else t - u.

(** [time.Until(t)] evaluated when the clock reads [now]. *)
Definition Until (now t : Time) : Duration := Sub t now.

(** *** [time.Parse(time.RFC3339, s)]

    The layout is [2006-01-02T15:04:05Z07:00].  [time.Parse] takes it
    element by element: the year is four digits, the month, day, minute
    and second two, the hour one or two; a fractional second may follow the
    seconds; the zone is [Z] or a sign and [hh:mm], where an offset of up to
    24 hours and up to 60 minutes is let through. *)

Definition RFC3339 : string := "2006-01-02T15:04:05Z07:00".

(** The fields of a [*time.ParseError] besides the layout and the value. *)
Record failure := {
  LayoutElem : string;
  ValueElem : string;
  Message : string
}.

(** [errBad] at the layout element [elem], the value left being [value]. *)
Definition cannot (elem : string) (value : list ascii) : failure :=
  {| LayoutElem := elem; ValueElem := string_of_list_ascii value;
     Message := "" |}.

Definition out_of_range (elem : string) (value : list ascii) (what : string)
  : failure :=
  {| LayoutElem := elem; ValueElem := string_of_list_ascii value;
     Message := ": " +:+ what +:+ " out of range" |}.

Definition digit (a : ascii) : option Z :=
  let n := Z.of_nat (nat_of_ascii a) in
  if (48 <=? n) && (n <=? 57) then Some (n - 48) else None.

(** Exactly [n] decimal digits. *)
Fixpoint number (n : nat) (acc : Z) (s : list ascii) : option (Z * list ascii) :=
  match n with
  | O => Some (acc, s)
  | S n' =>
      match s with
      | a :: s' =>
          match digit a with
          | Some d => number n' (10 * acc + d) s'
          | None => None
          end
      | [] => None
      end
  end.

(** [getnum(s, fixed)]: two digits, or one when [fixed] is false and no
    second digit follows. *)
Definition getnum (fixed : bool) (s : list ascii) : option (Z * list ascii) :=
  match number 2 0 s with
  | Some r => Some r
  | None => if fixed then None else number 1 0 s
  end.

(** [skip(value, prefix)] for a prefix of one character. *)
Definition expect (c : ascii) (s : list ascii) : option (list ascii) :=
  match s with
  | a :: s' => if Ascii.eqb a c then Some s' else None
  | [] => None
  end.

(** The digits of a fractional second, scaled to nanoseconds: [scale] is the
    weight of the next digit. *)
Fixpoint fraction (scale acc : Z) (s : list ascii) : Z * list ascii :=
  match s with
  | a :: s' =>
      match digit a with
      | Some d => fraction (scale / 10) (acc + d * scale) s'
      | None => (acc, s)
      end
  | [] => (acc, s)
  end.

Definition isLeap (y : Z) : bool :=
  (y mod 4 =? 0) && (negb (y mod 100 =? 0) || (y mod 400 =? 0)).

Definition daysIn (y m : Z) : Z :=
  if m =? 2 then (if isLeap y then 29 else 28)
  else if (m =? 4) || (m =? 6) || (m =? 9) || (m =? 11) then 30 else 31.

(** Days from 1970-01-01 to the civil date [y]-[m]-[d]. *)
Definition daysSinceEpoch (y m d : Z) : Z :=
  let y' := if m <=? 2 then y - 1 else y in
  let era := y' / 400 in
  let yoe := y' - era * 400 in
  let mp := (m + 9) mod 12 in
  let doy := (153 * mp + 2) / 5 + d - 1 in
  let doe := yoe * 365 + yoe / 4 - yoe / 100 + doy in
  era * 146097 + doe - 719468.

(** The element [Z07:00]: the offset east of UTC in seconds, and the value
    left.  The range test lets an hour of 24 and a minute of 60 through;
    when both are out of range the minute is the one reported. *)
Definition zone (s : list ascii) : (Z * list ascii) + failure :=
  let bad := inr (cannot "Z07:00" s) in
  match s with
  | sign :: h1 :: h2 :: colon :: m1 :: m2 :: rest =>
      if Ascii.eqb sign "Z"%char then inl (0, h1 :: h2 :: colon :: m1 :: m2 :: rest)
      else if negb (Ascii.eqb colon ":"%char) then bad
      else
        let hr := number 2 0 [h1; h2] in
        let mm := if hr is Some _ then number 2 0 [m1; m2] else None in
        let hours := if hr is Some (h, _) then h else 0 in
        let minutes := if mm is Some (m, _) then m else 0 in
        if 60 <? minutes
        then inr (out_of_range "Z07:00" rest "time zone offset minute")
        else if 24 <? hours
        then inr (out_of_range "Z07:00" rest "time zone offset hour")
        else if mm is Some _ then
          if Ascii.eqb sign "+"%char
          then inl (hours * 3600 + minutes * 60, rest)
          else if Ascii.eqb sign "-"%char
          then inl (- (hours * 3600 + minutes * 60), rest)
          else bad
        else bad
  | sign :: rest =>
      if Ascii.eqb sign "Z"%char then inl (0, rest) else bad
  | [] => bad
  end.

(** The fractional second that may follow the seconds though the layout
    has none: a period or comma and at least one digit. *)
Definition fractional (s : list ascii) : Z * list ascii :=
  match s with
  | a :: b :: _ =>
      if (Ascii.eqb a "."%char || Ascii.eqb a ","%char)
         && bool_decide (is_Some (digit b))
      then fraction 100000000 0 (tail s) else (0, s)
  | _ => (0, s)
  end.

(** One element of two digits: the character that precedes it in the
    layout, its digits, and the test of its range, if it has one. *)
Definition element (prefix : ascii) (elem : string) (fixed : bool)
    (outside : Z → bool) (what : string) (s : list ascii)
  : (Z * list ascii) + failure :=
  match expect prefix s with
  | None => inr (cannot (String prefix EmptyString) s)
  | Some s1 =>
      match getnum fixed s1 with
      | None => inr (cannot elem s1)
      | Some (n, s2) =>
          if outside n then inr (out_of_range elem s2 what) else inl (n, s2)
      end
  end.

(** [time.quote]: the text between double quotes, a double quote and a
    backslash escaped, every byte outside printable ASCII written as its
    hexadecimal code. *)
Definition hex (n : nat) : ascii :=
  ascii_of_nat (if (n <? 10)%nat then 48 + n else 87 + n).

Definition backslash : ascii := ascii_of_nat 92.

Fixpoint escaped (s : string) : string :=
  match s with
  | EmptyString => EmptyString
  | String a s' =>
      let n := nat_of_ascii a in
      if ((128 <=? n) || (n <? 32))%nat then
        String backslash (String "x"%char
          (String (hex (n / 16)) (String (hex (n mod 16)) (escaped s'))))
      else if ((n =? 34) || (n =? 92))%nat then
        String backslash (String a (escaped s'))
      else String a (escaped s')
  end.

Definition time_quote (s : string) : string := quote +:+ escaped s +:+ quote.

Definition parseRFC3339 (s : list ascii) : Time + failure :=
  match number 4 0 s with
  | None => inr (cannot "2006" s)
  | Some (year, s) =>
  match element "-" "01" true (λ m, (m <=? 0) || (12 <? m)) "month" s with
  | inr f => inr f
  | inl (month, s) =>
  (* any day of two digits is taken here, and tested at the end *)
  match element "-" "02" true (λ _, false) "day" s with
  | inr f => inr f
  | inl (day, s) =>
  match element "T" "15" false (λ h, 24 <=? h) "hour" s with
  | inr f => inr f
  | inl (hour, s) =>
  match element ":" "04" true (λ m, 60 <=? m) "minute" s with
  | inr f => inr f
  | inl (min, s) =>
  match element ":" "05" true (λ sc, 60 <=? sc) "second" s with
  | inr f => inr f
  | inl (sec, s) =>
  let '(nsec, s) := fractional s in
  match zone s with
  | inr f => inr f
  | inl (offset, s) =>
  if negb (bool_decide (s = [])) then
    inr {| LayoutElem := ""; ValueElem := string_of_list_ascii s;
           Message := ": extra text: " +:+ time_quote (string_of_list_ascii s) |}
  else if (day <? 1) || (daysIn year month <? day) then
    inr {| LayoutElem := ""; ValueElem := ""; Message := ": day out of range" |}
  else
    inl (((daysSinceEpoch year month day * 86400
           + hour * 3600 + min * 60 + sec) - offset) * 1000000000 + nsec)
  end end end end end end end.

(** The text of the error with which [time.Parse(time.RFC3339, value)]
    rejects [value]: the [Error] method of [time.ParseError]. *)
Definition ParseError_Error (value : string) : string :=
  match parseRFC3339 (list_ascii_of_string value) with
  | inr f =>
      if bool_decide (Message f = EmptyString) then
        "parsing time " +:+ time_quote value +:+ " as " +:+ time_quote RFC3339
        +:+ ": cannot parse " +:+ time_quote (ValueElem f)
        +:+ " as " +:+ time_quote (LayoutElem f)
      else "parsing time " +:+ time_quote value +:+ Message f
  | inl _ => EmptyString
  end.

End Clock.
Export Clock.

(** ** Go error values *)

Module Errors.

(** Package-level error variables.  Each is created once by [errors.New];
    [==] on two of them is identity of the variable. *)
Inductive sentinel :=
  | ErrNotFound                  (* wego.ErrNotFound *)
  | io_EOF
  | io_ErrUnexpectedEOF
  | context_Canceled
  | context_DeadlineExceeded
  | closer_ErrClosed.

#[global] Instance sentinel_eq_dec : EqDecision sentinel.
Proof. solve_decision. Defined.

(** The error values that flow through the package. *)
Inductive error :=
  | Sentinel (s : sentinel)
  | errorString (text : string)
      (* a fresh value of [errors.New], which is what [fmt.Errorf] returns
         when its format has no %w verb: it has no Unwrap method *)
  | url_Error (op url : string) (Err : error)
      (* the *url.Error of http.Client.Do; Unwrap returns Err *)
  | json_SyntaxError (msg : string)
  | json_UnmarshalTypeError (value strct field typ : string)
      (* the description of the JSON value, the struct and the field it was
         meant for (both empty at the top level), and the Go type *)
  | time_ParseError (value : string).
      (* the error of time.Parse(time.RFC3339, value) *)

#[global] Instance error_eq_dec : EqDecision error.
Proof. solve_decision. Defined.

Definition sentinel_text (s : sentinel) : string :=
  match s with
  | ErrNotFound => "not found"
  | io_EOF => "EOF"
  | io_ErrUnexpectedEOF => "unexpected EOF"
  | context_Canceled => "context canceled"
  | context_DeadlineExceeded => "context deadline exceeded"
  | closer_ErrClosed => "closed"
  end.

(** [err.Error()]. *)
Fixpoint Error (e : error) : string :=
  match e with
  | Sentinel s => sentinel_text s
  | errorString text => text
  | url_Error op url Err =>
      op +:+ " " +:+ quote +:+ url +:+ quote +:+ ": " +:+ Error Err
  | json_SyntaxError msg => msg
  | json_UnmarshalTypeError value strct field typ =>
      if bool_decide (strct = EmptyString ∧ field = EmptyString) then
        "json: cannot unmarshal " +:+ value +:+ " into Go value of type "
        +:+ typ
      else
        "json: cannot unmarshal " +:+ value +:+ " into Go struct field "
        +:+ strct +:+ "." +:+ field +:+ " of type " +:+ typ
  | time_ParseError value => ParseError_Error value
  end.

(** [errors.Is(err, target)] for a package-level [target]: compare, then
    follow Unwrap.  A fresh [errorString] is never identical to a package
    variable, whatever its text. *)
Fixpoint errors_Is (err : error) (target : sentinel) : bool :=
  match err with
  | Sentinel s => bool_decide (s = target)
  | url_Error _ _ Err => errors_Is Err target
  | errorString _ | json_SyntaxError _
  | json_UnmarshalTypeError _ _ _ _ | time_ParseError _ => false
  end.

(** [fmt.Errorf(prefix + "%v", err)]: the text of [err] is copied into a new
    error; the chain to [err] is not kept. *)
Definition Errorf_v (prefix : string) (err : error) : error :=
  errorString (prefix +:+ Error err).

End Errors.
Export Errors.

(** [time.Parse(time.RFC3339, value)]: on failure the zero Time and an
    error. *)
Definition Parse_RFC3339 (value : string) : Time * option error :=
  match parseRFC3339 (list_ascii_of_string value) with
  | inl t => (t, None)
  | inr _ => (Time_zero, Some (time_ParseError value))
  end.

(** ** encoding/json: documents and decoding into structs *)

Module Json.

(** A number is kept as its literal, which is what the decoder converts. *)
#[local] Unset Elimination Schemes.
Inductive json :=
  | JNull
  | JBool (b : bool)
  | JNumber (literal : string)
  | JString (s : string)
  | JArray (elems : list json)
  | JObject (members : list (string * json)).
#[local] Set Elimination Schemes.

Definition kind (j : json) : string :=
  match j with
  | JNull => "null"
  | JBool _ => "bool"
  | JNumber _ => "number"
  | JString _ => "string"
  | JArray _ => "array"
  | JObject _ => "object"
  end.

(** A struct type that [json.Unmarshal] can fill: its zero value, and the
    decoding of a document into an existing value ([dst] is a pointer in Go,
    so the fields filled before an error stay filled). *)
Class Unmarshal (T : Type) := {
  zero : T;
  unmarshal : json → T → T * option error
}.

(** Keys match a field name exactly or under Unicode simple case folding.
    The field names of this package are ASCII; besides the ASCII letters,
    the runes that fold to one are the Kelvin sign U+212A, which folds to k,
    and the long s U+017F, which folds to s.  Strings are UTF-8: the two are
    the bytes E2 84 AA and C5 BF. *)
Definition lower (a : ascii) : ascii :=
  let n := nat_of_ascii a in
  if ((65 <=? n) && (n <=? 90))%nat then ascii_of_nat (n + 32) else a.

Definition byte_is (n : nat) (a : ascii) : bool := (nat_of_ascii a =? n)%nat.

Fixpoint fold_case (s : string) : string :=
  match s with
  | EmptyString => EmptyString
  | String a s' =>
      match s' with
      | String b s'' =>
          if byte_is 197 a && byte_is 191 b then String "s"%char (fold_case s'')
          else
            match s'' with
            | String c s''' =>
                if byte_is 226 a && byte_is 132 b && byte_is 170 c
                then String "k"%char (fold_case s''')
                else String (lower a) (fold_case s')
            | EmptyString => String (lower a) (fold_case s')
            end
      | EmptyString => String (lower a) EmptyString
      end
  end.

Definition same_key (k name : string) : bool :=
  String.eqb (fold_case k) (fold_case name).

(** The first error met is the one reported. *)
Definition first_error (e1 e2 : option error) : option error :=
  match e1 with Some _ => e1 | None => e2 end.

(** Store one member value in a string field: a string is stored, [null]
    leaves the field alone, anything else is skipped with a type error. *)
Definition set_string (strct field : string) (v : json) (old : string)
  : string * option error :=
  match v with
  | JString s => (s, None)
  | JNull => (old, None)
  | _ => (old, Some (json_UnmarshalTypeError (kind v) strct field "string"))
  end.

(** [strconv.ParseInt(literal, 10, 64)]: an optional sign and decimal
    digits, the value within the range of an int64. *)
Fixpoint digits (acc : Z) (s : list ascii) : option Z :=
  match s with
  | [] => Some acc
  | a :: s' =>
      match digit a with
      | Some d => digits (10 * acc + d) s'
      | None => None
      end
  end.

Definition ParseInt (literal : string) : option Z :=
  let '(sign, s) :=
    match list_ascii_of_string literal with
    | a :: s' =>
        if Ascii.eqb a "-"%char then (-1, s')
        else if Ascii.eqb a "+"%char then (1, s')
        else (1, a :: s')
    | [] => (1, [])
    end in
  match s with
  | [] => None
  | _ =>
      n ← digits 0 s;
      if (- 2 ^ 63 <=? sign * n) && (sign * n <? 2 ^ 63) then Some (sign * n)
      else None
  end.

(** The same for an int field (64 bits wide): a number whose literal is
    not an integer of that range is a type error that quotes the literal. *)
Definition set_int (strct field : string) (v : json) (old : Z)
  : Z * option error :=
  match v with
  | JNumber literal =>
      match ParseInt literal with
      | Some n => (n, None)
      | None =>
          (old, Some (json_UnmarshalTypeError ("number " +:+ literal)
                        strct field "int"))
      end
  | JNull => (old, None)
  | _ => (old, Some (json_UnmarshalTypeError (kind v) strct field "int"))
  end.

(** Decoding into the struct [name] of this package walks the members of
    the object in order; [null] is a no-op and any other document is a
    type error. *)
Definition into_struct {T} (name : string)
    (member : string → json → T → T * option error)
    (j : json) (dst : T) : T * option error :=
  match j with
  | JObject members =>
      fold_left (λ acc kv,
                   let '(d, e) := member kv.1 kv.2 acc.1 in
                   (d, first_error acc.2 e))
                members (dst, None)
  | JNull => (dst, None)
  | _ => (dst, Some (json_UnmarshalTypeError (kind j) EmptyString EmptyString
                       ("wego." +:+ name)))
  end.

End Json.
Export Json.

(** ** net/http values *)

Module Http.

Record Request := {
  Method : string;
  URL : string;
  Header : gmap string string;
  ReqBody : string
}.

(** [req.Header.Set(key, value)] on the request [req] points to. *)
Definition Header_Set (key value : string) (req : Request) : Request :=
  {| Method := Method req; URL := URL req;
     Header := <[key := value]> (Header req); ReqBody := ReqBody req |}.

(** A response body: reading it with [io.ReadAll] fails, or yields bytes.
    With the bytes comes what the JSON scanner makes of them: a document, or
    the syntax error it stops with. *)
Inductive body :=
  | Unreadable (e : error)
  | Bytes (raw : string) (doc : json + error).

Record Response := {
  StatusCode : Z;
  Body : body
}.

Definition StatusOK : Z := 200.
Definition StatusBadRequest : Z := 400.

End Http.
Export Http.

(** ** The types of the login exchange ([client_cards.go]) *)

Module badRequestResponse.
Record t := { Error : Z; Reason : string }.

Definition member (k : string) (v : json) (d : t) : t * option error :=
  if same_key k "error" then
    let '(n, e) := set_int "badRequestResponse" "error" v (Error d) in
    ({| Error := n; Reason := Reason d |}, e)
  else if same_key k "reason" then
    let '(s, e) := set_string "badRequestResponse" "reason" v (Reason d) in
    ({| Error := Error d; Reason := s |}, e)
  else (d, None).
End badRequestResponse.

#[global] Instance badRequestResponse_Unmarshal : Unmarshal badRequestResponse.t := {
  zero := {| badRequestResponse.Error := 0; badRequestResponse.Reason := "" |};
  unmarshal := into_struct "badRequestResponse" badRequestResponse.member
}.

(** The login response as it travels: the expiry is still a string. *)
Module loginResponse.
Record t := { ID : string; Token : string; TokenExpires : string }.

Definition member (k : string) (v : json) (d : t) : t * option error :=
  if same_key k "id" then
    let '(s, e) := set_string "loginResponse" "id" v (ID d) in
    ({| ID := s; Token := Token d; TokenExpires := TokenExpires d |}, e)
  else if same_key k "token" then
    let '(s, e) := set_string "loginResponse" "token" v (Token d) in
    ({| ID := ID d; Token := s; TokenExpires := TokenExpires d |}, e)
  else if same_key k "tokenExpires" then
    let '(s, e) := set_string "loginResponse" "tokenExpires" v (TokenExpires d) in
    ({| ID := ID d; Token := Token d; TokenExpires := s |}, e)
  else (d, None).
End loginResponse.

#[global] Instance loginResponse_Unmarshal : Unmarshal loginResponse.t := {
  zero := {| loginResponse.ID := ""; loginResponse.Token := "";
             loginResponse.TokenExpires := "" |};
  unmarshal := into_struct "loginResponse" loginResponse.member
}.

(** The public login response: the product of one successful login. *)
Module LoginResponse.
Record t := { ID : string; Token : string; TokenExpires : Time }.

Definition zero : t := {| ID := ""; Token := ""; TokenExpires := Time_zero |}.

(** [func (r *LoginResponse) load(l loginResponse) (err error)]: the receiver
    after the call, and the error. *)
Definition load (r : t) (l : loginResponse.t) : t * option error :=
  let r := {| ID := loginResponse.ID l; Token := Token r;
              TokenExpires := TokenExpires r |} in
  let r := {| ID := ID r; Token := loginResponse.Token l;
              TokenExpires := TokenExpires r |} in
  let '(expires, err) := Parse_RFC3339 (loginResponse.TokenExpires l) in
  let r := {| ID := ID r; Token := Token r; TokenExpires := expires |} in
  match err with
  | Some err =>
      (r, Some (Errorf_v "failed to parse token expires time stamp: " err))
  | None => (r, None)
  end.
End LoginResponse.

(** ** Request plumbing ([request.go]) and the login call *)

Section Plumbing.

(** What the surroundings of one call decide:
    - [url_Parse]: the error, if any, with which [http.NewRequestWithContext]
      rejects a URL;
    - [url_Values_Encode]: [params.Encode()];
    - [filepath_Join]: [filepath.Join];
    - [RemoteAddr]: [c.opts.RemoteAddr];
    - [httpc_Do]: what [c.httpc.Do] answers;
    - [token]: what [c.token(ctx)] returns to this caller. *)
Variable url_Parse : string → option error.
Variable url_Values_Encode : list (string * string) → string.
Variable filepath_Join : list string → string.
Variable RemoteAddr : string.
Variable httpc_Do : Request → Response + error.
Variable token : string * option error.

Definition http_NewRequestWithContext (method url body : string)
  : option Request * option error :=
  match url_Parse url with
  | Some err => (None, Some err)
  | None =>
      (Some {| Method := method; URL := url; Header := ∅; ReqBody := body |},
       None)
  end.

Definition endpoint (segments : list string) : string :=
  "/api/" +:+ filepath_Join segments.

(** [authenticateRequest] works on the request [req] points to: the request
    after the call, and the error. *)
Definition authenticateRequest (req : Request) : Request * option error :=
  match token with
  | (_, Some err) => (req, Some err)
  | (tok, None) => (Header_Set "Authorization" ("Bearer " +:+ tok) req, None)
  end.

Definition newGETRequest (endpoint : string) : option Request * option error :=
  match http_NewRequestWithContext "GET" (RemoteAddr +:+ endpoint) "" with
  | (_, Some err) => (None, Some (Errorf_v "new http GET request: " err))
  | (req, None) => (Header_Set "Accept" "application/json" <$> req, None)
  end.

Definition newAuthenticatedGETRequest (endpoint : string)
  : option Request * option error :=
  match newGETRequest endpoint with
  | (req, Some err) => (req, Some err)
  | (req, None) => ((λ r, (authenticateRequest r).1) <$> req, None)
  end.

(** [body] is given by what [json.Marshal(body)] returns. *)
Definition newAuthenticatedPOSTRequest (endpoint : string)
    (marshalled : string * option error) : option Request * option error :=
  match marshalled with
  | (_, Some err) => (None, Some (Errorf_v "failed to marshal json: " err))
  | (reqData, None) =>
      match http_NewRequestWithContext "POST" (RemoteAddr +:+ endpoint) reqData with
      | (_, Some err) => (None, Some (Errorf_v "new http POST request: " err))
      | (req, None) =>
          ((λ r, let r := Header_Set "Content-Type" "application/json" r in
                 let r := Header_Set "Accept" "application/json" r in
                 (authenticateRequest r).1) <$> req, None)
      end
  end.

Definition newAuthenticatedPUTRequest (endpoint : string)
    (marshalled : string * option error) : option Request * option error :=
  match marshalled with
  | (_, Some err) => (None, Some (Errorf_v "failed to marshal json: " err))
  | (reqData, None) =>
      match http_NewRequestWithContext "PUT" (RemoteAddr +:+ endpoint) reqData with
      | (_, Some err) => (None, Some (Errorf_v "new http POST request: " err))
      | (req, None) =>
          ((λ r, let r := Header_Set "Content-Type" "application/json" r in
                 let r := Header_Set "Accept" "application/json" r in
                 (authenticateRequest r).1) <$> req, None)
      end
  end.

Definition newAuthenticatedDELETERequest (endpoint : string)
  : option Request * option error :=
  match http_NewRequestWithContext "DELETE" (RemoteAddr +:+ endpoint) "" with
  | (_, Some err) => (None, Some (Errorf_v "new http DELETE request: " err))
  | (req, None) => ((λ r, (authenticateRequest r).1) <$> req, None)
  end.

(** [parseResponse(resp, dst)]: the value [dst] points to after the call,
    and the error. *)
Definition parseResponse `{Unmarshal T} (resp : Response) (dst : T)
  : T * option error :=
  match Body resp with
  | Unreadable err => (dst, Some (Errorf_v "failed to read response: " err))
  | Bytes data doc =>
      let '(dst, err) := match doc with
                         | inl j => unmarshal j dst
                         | inr err => (dst, Some err)
                         end in
      match err with
      | Some err =>
          (dst, Some (errorString ("failed to unmarshal response: " +:+ Error err
                                   +:+ "; raw response: " +:+ data)))
      | None => (dst, None)
      end
  end.

Definition unexpected_status (code : Z) : error :=
  errorString ("unexpected status code '" +:+ pretty code +:+ "' received").

(** [doSimpleRequest(req, resp)]; [resp] is [None] for a nil destination,
    and the result carries the destination after the call. *)
Definition doSimpleRequest `{Unmarshal T} (req : Request) (resp : option T)
  : option T * option error :=
  match httpc_Do req with
  | inr err => (resp, Some (Errorf_v "failed to send POST request: " err))
  | inl r =>
      if bool_decide (StatusCode r ≠ StatusOK)
      then (resp, Some (unexpected_status (StatusCode r)))
      else
        match resp with
        | None => (None, None)
        | Some dst =>
            let '(dst, err) := parseResponse r dst in
            match err with
            | Some err => (Some dst, Some (Errorf_v "failed to parse response: " err))
            | None => (Some dst, None)
            end
        end
  end.

(** The getters of one resource, generic in the resource's struct type as
    [json.Unmarshal] is. *)
Section Getters.
Context {Board Swimlane : Type} `{!Unmarshal Board} `{!Unmarshal Swimlane}.

(** [GetBoard] ([client_boards.go]). *)
Definition GetBoard (boardID : string) : Board * option error :=
  let endpoint := endpoint ["boards"; boardID] in
  match newAuthenticatedGETRequest endpoint with
  | (_, Some err) => (zero, Some err)
  | (None, None) => (zero, None)
  | (Some req, None) =>
      let '(r, err) := doSimpleRequest req (Some zero) in
      let r := default zero r in
      match err with
      | Some err =>
          if errors_Is err io_EOF then (r, Some (Sentinel ErrNotFound))
          else (r, Some err)
      | None => (r, None)
      end
  end.

(** [GetSwimlane]. *)
Definition GetSwimlane (boardID swimlaneID : string) : Swimlane * option error :=
  let endpoint := endpoint ["boards"; boardID; "swimlanes"; swimlaneID] in
  match newAuthenticatedGETRequest endpoint with
  | (_, Some err) => (zero, Some err)
  | (None, None) => (zero, None)
  | (Some req, None) =>
      let '(swimlane, err) := doSimpleRequest req (Some zero) in
      let swimlane := default zero swimlane in
      match err with
      | Some err =>
          if errors_Is err io_EOF then (swimlane, Some (Sentinel ErrNotFound))
          else (swimlane, Some err)
      | None => (swimlane, None)
      end
  end.

End Getters.

(** [loginOrRegister] ([client_cards.go]). *)
Definition loginOrRegister (endpoint : string) (params : list (string * string))
  : LoginResponse.t * option error :=
  let r := LoginResponse.zero in
  match http_NewRequestWithContext "POST" (RemoteAddr +:+ endpoint)
                                   (url_Values_Encode params) with
  | (_, Some err) => (r, Some (Errorf_v "failed to create new request: " err))
  | (None, None) => (r, None)
  | (Some req, None) =>
      let req := Header_Set "Content-Type" "application/x-www-form-urlencoded" req in
      let req := Header_Set "Accept" "application/json" req in
      match httpc_Do req with
      | inr err => (r, Some (Errorf_v "failed to send POST request: " err))
      | inl resp =>
          if bool_decide (StatusCode resp = StatusBadRequest) then
            let '(respData, err) := parseResponse resp (zero : badRequestResponse.t) in
            match err with
            | Some err =>
                (r, Some (Errorf_v "failed to parse response of bad request: " err))
            | None =>
                (r, Some (errorString
                            ("bad request: " +:+ badRequestResponse.Reason respData
                             +:+ " (" +:+ pretty (badRequestResponse.Error respData)
                             +:+ ")")))
            end
          else if bool_decide (StatusCode resp ≠ StatusOK) then
            (r, Some (unexpected_status (StatusCode resp)))
          else
            let '(respData, err) := parseResponse resp (zero : loginResponse.t) in
            match err with
            | Some err => (r, Some (Errorf_v "failed to parse response: " err))
            | None =>
                (* r.load(respData): the error it returns is dropped *)
                let '(r, _) := LoginResponse.load r respData in
                (r, None)
            end
      end
  end.

(** [Login]. *)
Definition Login (username password : string) : LoginResponse.t * option error :=
  loginOrRegister "/users/login" [("username", username); ("password", password)].

(** [Register]. *)
Definition Register (username password email : string)
  : LoginResponse.t * option error :=
  loginOrRegister "/users/register"
    [("username", username); ("password", password); ("email", email)].

(** The other methods of the API: build the request, send it, and decode
    the answer into the result, whose type [T] differs from method to method.
    Where the method passes a nil destination there is no result but the
    error, and the type of the destination plays no part. *)
Section Methods.
Context {T : Type} `{!Unmarshal T}.

(** [GetPublicBoards] ([client_boards.go]). *)
Definition GetPublicBoards : T * option error :=
  let endpoint := endpoint ["boards"] in
  match newAuthenticatedGETRequest endpoint with
  | (_, Some err) => (zero, Some err)
  | (None, None) => (zero, None)
  | (Some req, None) =>
      let '(boards, err) := doSimpleRequest req (Some zero) in
      (default zero boards, err)
  end.

(** [NewBoard]; [request] is given by what [json.Marshal] makes of it. *)
Definition NewBoard (request : string * option error) : T * option error :=
  let endpoint := endpoint ["boards"] in
  match newAuthenticatedPOSTRequest endpoint request with
  | (_, Some err) => (zero, Some err)
  | (None, None) => (zero, None)
  | (Some req, None) =>
      let '(r, err) := doSimpleRequest req (Some zero) in
      (default zero r, err)
  end.

(** [DeleteBoard]: the destination is nil. *)
Definition DeleteBoard (boardID : string) : option error :=
  let endpoint := endpoint ["boards"; boardID] in
  match newAuthenticatedDELETERequest endpoint with
  | (_, Some err) => Some err
  | (None, None) => None
  | (Some req, None) => (doSimpleRequest req (None : option T)).2
  end.

(** [ExportJSON]: the token is fetched first and travels in the URL. *)
Definition ExportJSON (boardID : string) : T * option error :=
  match token with
  | (_, Some err) => (zero, Some err)
  | (tok, None) =>
      let endpoint := endpoint ["boards"; boardID; "export?authToken=" +:+ tok] in
      match newGETRequest endpoint with
      | (_, Some err) => (zero, Some err)
      | (None, None) => (zero, None)
      | (Some req, None) =>
          let '(boardJSON, err) := doSimpleRequest req (Some zero) in
          (default zero boardJSON, err)
      end
  end.

(** [AddBoardLabel]: a PUT with a nil destination; [label] is given by
    what [json.Marshal] makes of the request built from [name] and
    [color]. *)
Definition AddBoardLabel (boardID : string) (label : string * option error)
  : option error :=
  let endpoint := endpoint ["boards"; boardID; "labels"] in
  match newAuthenticatedPUTRequest endpoint label with
  | (_, Some err) => Some err
  | (None, None) => None
  | (Some req, None) => (doSimpleRequest req (None : option T)).2
  end.

(** [GetBoardsFromUser]. *)
Definition GetBoardsFromUser (userID : string) : T * option error :=
  let endpoint := endpoint ["users"; userID] in
  match newAuthenticatedGETRequest endpoint with
  | (_, Some err) => (zero, Some err)
  | (None, None) => (zero, None)
  | (Some req, None) =>
      let '(r, err) := doSimpleRequest req (Some zero) in
      (default zero r, err)
  end.

(** [GetUser]. *)
Definition GetUser (userID : string) : T * option error :=
  let endpoint := endpoint ["users"; userID] in
  match newAuthenticatedGETRequest endpoint with
  | (_, Some err) => (zero, Some err)
  | (None, None) => (zero, None)
  | (Some req, None) =>
      let '(user, err) := doSimpleRequest req (Some zero) in
      (default zero user, err)
  end.

(** [GetCard] ([client_cards.go]). *)
Definition GetCard (boardID listID cardID : string) : T * option error :=
  let endpoint := endpoint ["boards"; boardID; "lists"; listID; "cards"; cardID] in
  match newAuthenticatedGETRequest endpoint with
  | (_, Some err) => (zero, Some err)
  | (None, None) => (zero, None)
  | (Some req, None) =>
      let '(card, err) := doSimpleRequest req (Some zero) in
      let card := default zero card in
      match err with
      | Some err =>
          if errors_Is err io_EOF then (card, Some (Sentinel ErrNotFound))
          else (card, Some err)
      | None => (card, None)
      end
  end.

(** [DeleteCard]: the endpoint is put together by hand. *)
Definition DeleteCard (boardID cardID : string) : option error :=
  let endpoint := "/api/boards/" +:+ boardID +:+ "/cards/" +:+ cardID in
  match newAuthenticatedDELETERequest endpoint with
  | (_, Some err) => Some err
  | (None, None) => None
  | (Some req, None) => (doSimpleRequest req (None : option T)).2
  end.

End Methods.

End Plumbing.

(** ** The session manager and the token broker ([client.go])

    The client is shared by the goroutine that constructs it, the goroutine
    of [connectionRoutine], and any number of goroutines calling [token].
    Their interleavings are the runs of a transition system: a state holds
    the shared fields of the client and where each goroutine stands in its
    code; a label names the goroutine that moves, or what its surroundings
    do (the closer, the clock, the login server). *)

Record Options := {
  RemoteAddr : string;
  Username : string;
  Password : string;
  TimeBetweenLoginAttemps : Duration
}.

(** The two calls of [loginUntilSuccess]: from [NewClient], and from
    [connectionRoutine] when the timer has fired. *)
Inductive phase := Init | Renew.

(** Where the managing thread stands: the caller of [NewClient] up to the
    start of the routine, the routine's goroutine from then on. *)
Inductive manager :=
  | LoginCall (ph : phase)
      (* loginUntilSuccess: c.Login is in flight *)
  | Sleeping (ph : phase) (until : Time)
      (* loginUntilSuccess: in time.Sleep *)
  | Returning (ph : phase) (resp : LoginResponse.t)
      (* loginUntilSuccess: the user id is saved, about to return *)
  | Failed (err : error)
      (* NewClient has returned (nil, err) *)
  | Select
      (* connectionRoutine: entering its select *)
  | Parked
      (* connectionRoutine: blocked in its select *)
  | Reply (i : nat)
      (* connectionRoutine: received caller i's tokenChan, about to send *)
  | SendBlocked (i : nat)
      (* connectionRoutine: blocked in tokenChan <- token *)
  | Exited.
      (* connectionRoutine has returned *)

(** Where a goroutine calling [token] stands. *)
Inductive position :=
  | Handoff          (* entering the first select *)
  | HandoffParked    (* blocked in the first select *)
  | Await            (* entering the second select *)
  | AwaitParked      (* blocked in the second select *)
  | Returned (token : string) (err : option error).

#[global] Instance position_eq_dec : EqDecision position.
Proof. solve_decision. Defined.

(** One call of [token]: its position, [ctx.Err()] of its context, and the
    buffer of its [tokenChan] (capacity 1). *)
Record caller := {
  at_ : position;
  ctxErr : option error;
  tokenChan : option string
}.

(** Why a caller's context ends. *)
Inductive cause := Cancelled | DeadlineExceeded.

Definition ctx_Err (why : cause) : error :=
  match why with
  | Cancelled => Sentinel context_Canceled
  | DeadlineExceeded => Sentinel context_DeadlineExceeded
  end.

Record state := {
  opts : Options;              (* c.opts *)
  now : Time;                  (* the clock *)
  closing : bool;              (* c.ClosingChan() is closed *)
  ctxDone : bool;              (* the contexts of c.Context() are cancelled *)
  mxUserID : string;           (* c.mxUserID *)
  pc : manager;
  token : string;              (* connectionRoutine's token *)
  tokenExpires : Time;         (* connectionRoutine's tokenExpires *)
  timer : option Time;         (* expires: armed, and the instant it fires *)
  tick : bool;                 (* expires.C holds a value *)
  callers : gmap nat caller;   (* the calls of token, by goroutine *)
  logins : list LoginResponse.t
    (* history, not in the code: the successful logins, latest first *)
}.

Definition set_now (t : Time) (s : state) : state :=
  {| opts := opts s; now := t; closing := closing s; ctxDone := ctxDone s;
     mxUserID := mxUserID s; pc := pc s; token := token s;
     tokenExpires := tokenExpires s; timer := timer s; tick := tick s;
     callers := callers s; logins := logins s |}.

Definition set_closing (b : bool) (s : state) : state :=
  {| opts := opts s; now := now s; closing := b; ctxDone := ctxDone s;
     mxUserID := mxUserID s; pc := pc s; token := token s;
     tokenExpires := tokenExpires s; timer := timer s; tick := tick s;
     callers := callers s; logins := logins s |}.

Definition set_ctxDone (b : bool) (s : state) : state :=
  {| opts := opts s; now := now s; closing := closing s; ctxDone := b;
     mxUserID := mxUserID s; pc := pc s; token := token s;
     tokenExpires := tokenExpires s; timer := timer s; tick := tick s;
     callers := callers s; logins := logins s |}.

Definition set_pc (p : manager) (s : state) : state :=
  {| opts := opts s; now := now s; closing := closing s; ctxDone := ctxDone s;
     mxUserID := mxUserID s; pc := p; token := token s;
     tokenExpires := tokenExpires s; timer := timer s; tick := tick s;
     callers := callers s; logins := logins s |}.

Definition set_session (tok : string) (expires : Time) (s : state) : state :=
  {| opts := opts s; now := now s; closing := closing s; ctxDone := ctxDone s;
     mxUserID := mxUserID s; pc := pc s; token := tok;
     tokenExpires := expires; timer := timer s; tick := tick s;
     callers := callers s; logins := logins s |}.

Definition set_timer (t : option Time) (s : state) : state :=
  {| opts := opts s; now := now s; closing := closing s; ctxDone := ctxDone s;
     mxUserID := mxUserID s; pc := pc s; token := token s;
     tokenExpires := tokenExpires s; timer := t; tick := tick s;
     callers := callers s; logins := logins s |}.

Definition set_tick (b : bool) (s : state) : state :=
  {| opts := opts s; now := now s; closing := closing s; ctxDone := ctxDone s;
     mxUserID := mxUserID s; pc := pc s; token := token s;
     tokenExpires := tokenExpires s; timer := timer s; tick := b;
     callers := callers s; logins := logins s |}.

Definition set_callers (m : gmap nat caller) (s : state) : state :=
  {| opts := opts s; now := now s; closing := closing s; ctxDone := ctxDone s;
     mxUserID := mxUserID s; pc := pc s; token := token s;
     tokenExpires := tokenExpires s; timer := timer s; tick := tick s;
     callers := m; logins := logins s |}.

(** A successful login: the user id is stored under [c.mx]. *)
Definition save_login (r : LoginResponse.t) (s : state) : state :=
  {| opts := opts s; now := now s; closing := closing s; ctxDone := ctxDone s;
     mxUserID := LoginResponse.ID r; pc := pc s; token := token s;
     tokenExpires := tokenExpires s; timer := timer s; tick := tick s;
     callers := callers s; logins := r :: logins s |}.

Definition set_at (p : position) (c : caller) : caller :=
  {| at_ := p; ctxErr := ctxErr c; tokenChan := tokenChan c |}.

Definition set_ctxErr (e : option error) (c : caller) : caller :=
  {| at_ := at_ c; ctxErr := e; tokenChan := tokenChan c |}.

Definition set_tokenChan (b : option string) (c : caller) : caller :=
  {| at_ := at_ c; ctxErr := ctxErr c; tokenChan := b |}.

Definition parked (c : caller) : bool :=
  match at_ c with
  | HandoffParked | AwaitParked => true
  | _ => false
  end.

(** A goroutine blocked in a select is woken by the first of its cases to
    become ready, and then takes that case: closing the closing channel
    wakes every goroutine blocked on it. *)
Definition wake (err : error) (c : caller) : caller :=
  if parked c then set_at (Returned "" (Some err)) c else c.

(** [c.GetCurrentUserID()]. *)
Definition GetCurrentUserID (s : state) : string := mxUserID s.

(** [NewClient(opts)] up to its call of [loginUntilSuccess], the clock
    reading [t0]: the defaults are assigned and the first login is about to
    be tried. *)
Definition NewClient (o : Options) (t0 : Time) : state :=
  {| opts := {| RemoteAddr := RemoteAddr o; Username := Username o;
                Password := Password o;
                TimeBetweenLoginAttemps :=
                  if TimeBetweenLoginAttemps o <? Second then Second
                  else TimeBetweenLoginAttemps o |};
     now := t0; closing := false; ctxDone := false; mxUserID := "";
     pc := LoginCall Init; token := ""; tokenExpires := Time_zero;
     timer := None; tick := false; callers := ∅; logins := [] |}.

(** The client handle exists once [NewClient] has returned it. *)
Definition constructed (s : state) : bool :=
  match pc s with
  | LoginCall Init | Sleeping Init _ | Returning Init _ | Failed _ => false
  | _ => true
  end.

(** The duration the renewal timer is given:
    [time.Until(tokenExpires) - 5*time.Second]. *)
Definition renewal_delay (now expires : Time) : Duration :=
  Duration_sub (Until now expires) (Duration_mul 5 Second).

(** The case a select takes.  Go takes one of the cases that can proceed,
    chosen at random, and blocks the goroutine when none can. *)
Inductive routine_case :=
  | RClosing          (* case <-closingChan *)
  | RExpired          (* case <-expires.C *)
  | RRecv (i : nat)   (* case tokenChan := <-c.authChan, from caller i *)
  | RBlock.

Inductive caller_case :=
  | CClosing          (* case <-c.ClosingChan() *)
  | CDone             (* case <-ctx.Done() *)
  | CComm             (* c.authChan <- tokenChan, or token := <-tokenChan *)
  | CBlock.

Inductive label :=
  | Close
      (* c.Close(): the closing channel is closed *)
  | CtxCancel
      (* the closer cancels the contexts handed out by c.Context() *)
  | Advance (dt : Duration)
      (* time passes *)
  | Fire
      (* the runtime fires the timer: a value is sent on expires.C *)
  | LoginAnswer (answer : Response + error)
      (* c.httpc.Do answers the login in flight *)
  | Wake
      (* time.Sleep returns *)
  | Return
      (* loginUntilSuccess returns its results, and its caller goes on up to
         the select of connectionRoutine *)
  | RoutineSelect (c : routine_case)
  | Send
      (* tokenChan <- token *)
  | Fetch (i : nat) (ended : option cause)
      (* goroutine i calls c.token(ctx); its context may have ended *)
  | Cancel (i : nat) (why : cause)
      (* the context of caller i ends *)
  | CallerSelect (i : nat) (c : caller_case).

(** What the login call takes from its surroundings: the error, if any,
    with which [http.NewRequestWithContext] rejects a URL, and
    [params.Encode()]. *)
Class Surroundings := {
  env_url_Parse : string → option error;
  env_url_Values_Encode : list (string * string) → string
}.

Section Manager.

Context {env : Surroundings}.

(** [c.Login(ctx, c.opts.Username, c.opts.Password)] when the server
    answers [answer]. *)
Definition Login_with (o : Options) (answer : Response + error)
  : LoginResponse.t * option error :=
  Login env_url_Parse env_url_Values_Encode (RemoteAddr o) (λ _, answer)
        (Username o) (Password o).

Definition no_handoff_parked (m : gmap nat caller) : bool :=
  bool_decide (map_Forall (λ _ c, at_ c ≠ HandoffParked) m).

(** [loginUntilSuccess], one iteration: the login has been answered. *)
Definition loginUntilSuccess (ph : phase) (answer : Response + error) (s : state)
  : state :=
  match Login_with (opts s) answer with
  | (resp, None) =>
      (* token, tokenExpires are set; the user id is saved; return *)
      set_pc (Returning ph resp) (save_login resp s)
  | (_, Some err) =>
      if ctxDone s then
        (* err = ctx.Err(); return: the token and expiry results are zero *)
        match ph with
        | Init => set_pc (Failed (Sentinel context_Canceled)) s
        | Renew => set_pc Exited (set_session "" Time_zero s)
        end
      else
        set_pc (Sleeping ph (now s + TimeBetweenLoginAttemps (opts s))) s
  end.

(** The select of [connectionRoutine]. *)
Definition connectionRoutine_select (c : routine_case) (s : state) : option state :=
  match c with
  | RClosing =>
      if closing s then Some (set_pc Exited s) else None
  | RExpired =>
      if tick s then Some (set_pc (LoginCall Renew) (set_tick false s)) else None
  | RRecv i =>
      match callers s !! i with
      | Some cl =>
          if bool_decide (at_ cl = HandoffParked)
          then Some (set_pc (Reply i)
                       (set_callers (<[i := set_at Await cl]> (callers s)) s))
          else None
      | None => None
      end
  | RBlock =>
      if negb (closing s) && negb (tick s) && no_handoff_parked (callers s)
      then Some (set_pc Parked s) else None
  end.

(** [tokenChan <- token] on the channel received from caller [i]: handed to
    the caller if it is blocked receiving, stored if the buffer has room,
    and blocking otherwise. *)
Definition connectionRoutine_send (i : nat) (s : state) : option state :=
  match callers s !! i with
  | Some cl =>
      if bool_decide (at_ cl = AwaitParked) then
        Some (set_pc Select
                (set_callers (<[i := set_at (Returned (token s) None) cl]> (callers s)) s))
      else if tokenChan cl is None then
        Some (set_pc Select
                (set_callers (<[i := set_tokenChan (Some (token s)) cl]> (callers s)) s))
      else Some (set_pc (SendBlocked i) s)
  | None => None
  end.

Definition routine_parked (s : state) : bool :=
  match pc s with Parked => true | _ => false end.

(** The two selects of [token]. *)
Definition token_select (i : nat) (c : caller_case) (s : state) : option state :=
  match callers s !! i with
  | Some cl =>
      let finish tok err :=
        Some (set_callers (<[i := set_at (Returned tok err) cl]> (callers s)) s) in
      match at_ cl, c with
      | (Handoff | Await), CClosing =>
          if closing s then finish "" (Some (Sentinel closer_ErrClosed)) else None
      | (Handoff | Await), CDone =>
          match ctxErr cl with
          | Some err => finish "" (Some err)
          | None => None
          end
      | Handoff, CComm =>
          match pc s with
          | Parked =>
              Some (set_pc (Reply i)
                      (set_callers (<[i := set_at Await cl]> (callers s)) s))
          | _ => None
          end
      | Handoff, CBlock =>
          if negb (closing s) && bool_decide (ctxErr cl = None)
             && negb (routine_parked s)
          then Some (set_callers (<[i := set_at HandoffParked cl]> (callers s)) s)
          else None
      | Await, CComm =>
          match tokenChan cl with
          | Some tok =>
              Some (set_callers
                      (<[i := set_at (Returned tok None) (set_tokenChan None cl)]>
                         (callers s)) s)
          | None => None
          end
      | Await, CBlock =>
          if negb (closing s) && bool_decide (ctxErr cl = None)
             && bool_decide (tokenChan cl = None)
          then Some (set_callers (<[i := set_at AwaitParked cl]> (callers s)) s)
          else None
      | _, _ => None
      end
  | None => None
  end.

Definition step (s : state) (l : label) : option state :=
  match l with
  | Close =>
      Some (set_pc (if pc s is Parked then Exited else pc s)
              (set_callers (wake (Sentinel closer_ErrClosed) <$> callers s)
                 (set_closing true s)))
  | CtxCancel =>
      if closing s then Some (set_ctxDone true s) else None
  | Advance dt =>
      if 0 <=? dt then Some (set_now (now s + dt) s) else None
  | Fire =>
      match timer s with
      | Some w =>
          if w <=? now s then
            Some (match pc s with
                  | Parked => set_pc (LoginCall Renew) (set_timer None s)
                  | _ => set_tick true (set_timer None s)
                  end)
          else None
      | None => None
      end
  | LoginAnswer answer =>
      match pc s with
      | LoginCall ph => Some (loginUntilSuccess ph answer s)
      | _ => None
      end
  | Wake =>
      match pc s with
      | Sleeping ph until =>
          if until <=? now s then Some (set_pc (LoginCall ph) s) else None
      | _ => None
      end
  | Return =>
      match pc s with
      | Returning _ resp =>
          let expires := LoginResponse.TokenExpires resp in
          Some (set_pc Select
                  (set_timer (Some (now s + renewal_delay (now s) expires))
                     (set_session (LoginResponse.Token resp) expires s)))
      | _ => None
      end
  | RoutineSelect c =>
      match pc s with
      | Select => connectionRoutine_select c s
      | _ => None
      end
  | Send =>
      match pc s with
      | Reply i => connectionRoutine_send i s
      | _ => None
      end
  | Fetch i ended =>
      if constructed s then
        match callers s !! i with
        | None =>
            Some (set_callers
                    (<[i := {| at_ := Handoff; ctxErr := ctx_Err <$> ended;
                               tokenChan := None |}]> (callers s)) s)
        | Some _ => None
        end
      else None
  | Cancel i why =>
      match callers s !! i with
      | Some cl =>
          if ctxErr cl is None then
            Some (set_callers
                    (<[i := wake (ctx_Err why) (set_ctxErr (Some (ctx_Err why)) cl)]>
                       (callers s)) s)
          else None
      | None => None
      end
  | CallerSelect i c => token_select i c s
  end.

(** A run: the labels taken in order; [None] when one of them cannot be
    taken. *)
Fixpoint run (s : state) (ls : list label) : option state :=
  match ls with
  | [] => Some s
  | l :: ls' =>
      match step s l with
      | Some s' => run s' ls'
      | None => None
      end
  end.

(** The states the client can be in. *)
Definition reachable (s : state) : Prop :=
  ∃ o t0 ls, run (NewClient o t0) ls = Some s.

(** The login attempt that a label answers fails. *)
Definition fails (o : Options) (l : label) : Prop :=
  ∀ answer, l = LoginAnswer answer → ∃ r err, Login_with o answer = (r, Some err).

End Manager.

(** ** The notions of the statements, and the invariants of the runs *)

(** Shutdown.  The contexts end only after the closing channel is closed; no
    goroutine stays blocked in a select once it is closed; the routine and
    a failed construction end only then. *)
Record shutdown_inv (s : state) : Prop := {
  si_ctx : ctxDone s = true → closing s = true;
  si_routine : closing s = true → pc s ≠ Parked;
  si_callers :
    closing s = true → ∀ i c, callers s !! i = Some c → parked c = false;
  si_exited : pc s = Exited → closing s = true;
  si_failed :
    ∀ e, pc s = Failed e → e = Sentinel context_Canceled ∧ ctxDone s = true
}.

(** The broker.  A caller whose handoff has been received waits for the
    reply, blocked or not, or has given up with an error. *)
Definition accepted (p : position) : Prop :=
  p = Await ∨ p = AwaitParked ∨ ∃ e, p = Returned "" (Some e).

Record broker_inv (s : state) : Prop := {
  bi_send : ∀ i, pc s ≠ SendBlocked i;
  bi_reply :
    ∀ i, pc s = Reply i →
      ∃ c, callers s !! i = Some c ∧ tokenChan c = None ∧ accepted (at_ c);
  bi_slot :
    ∀ i c t, callers s !! i = Some c → tokenChan c = Some t →
      at_ c = Await ∨ ∃ e, at_ c = Returned "" (Some e);
  bi_init : constructed s = false → callers s = ∅;
  bi_parked : ∀ i c, callers s !! i = Some c → parked c = true → ctxErr c = None
}.

(** The session.  [adopted r s]: the routine holds the token and expiry of
    the login [r]. *)
Definition adopted (r : LoginResponse.t) (s : state) : Prop :=
  token s = LoginResponse.Token r ∧
  tokenExpires s = LoginResponse.TokenExpires r.

(** While the routine serves, it holds the token and expiry of the latest
    login, whose user id is the saved one.  While [loginUntilSuccess] is
    about to return a new login, the saved user id is already the new one
    and the token and expiry are still those of the login before.  A
    routine that has returned leaves its variables behind. *)
Definition session_of (s : state) : Prop :=
  match pc s with
  | LoginCall Init | Sleeping Init _ | Failed _ => logins s = []
  | Returning Init r =>
      logins s = [r] ∧ mxUserID s = LoginResponse.ID r
  | Returning Renew r =>
      ∃ r0 rest, logins s = r :: r0 :: rest ∧
                 mxUserID s = LoginResponse.ID r ∧ adopted r0 s
  | Exited => logins s ≠ []
  | _ =>
      ∃ r rest, logins s = r :: rest ∧
                mxUserID s = LoginResponse.ID r ∧ adopted r s
  end.

Record session_inv (s : state) : Prop := {
  se_session : session_of s;
  se_timer :
    ∀ w, timer s = Some w →
      ∃ t0, t0 ≤ now s ∧ w = t0 + renewal_delay t0 (tokenExpires s);
  se_busy :
    match pc s with
    | LoginCall _ | Sleeping _ _ | Returning _ _ | Failed _ =>
        timer s = None ∧ tick s = false
    | _ => True
    end;
  se_tick : tick s = true → timer s = None
}.

(** The results of [token].  [issued s t]: [t] is the token of a login
    that succeeded. *)
Definition issued (s : state) (t : string) : Prop :=
  ∃ r, r ∈ logins s ∧ t = LoginResponse.Token r.

Record results_inv (s : state) : Prop := {
  ri_slot :
    ∀ i c t, callers s !! i = Some c → tokenChan c = Some t → issued s t;
  ri_token :
    ∀ i c t, callers s !! i = Some c → at_ c = Returned t None → issued s t;
  ri_error :
    ∀ i c t e, callers s !! i = Some c → at_ c = Returned t (Some e) →
      t = "" ∧ ((e = Sentinel closer_ErrClosed ∧ closing s = true)
                ∨ ctxErr c = Some e);
  ri_ctx :
    ∀ i c e, callers s !! i = Some c → ctxErr c = Some e → ∃ why, e = ctx_Err why
}.

(** The invariants hold in every reachable state. *)
Record invariants (s : state) : Prop := {
  inv_shutdown : shutdown_inv s;
  inv_broker : broker_inv s;
  inv_session : session_inv s;
  inv_results : results_inv s
}.

(** Caller [i] has been handed the token [t]: it is in the buffer of its
    channel, or the caller has returned it. *)
Definition delivered (i : nat) (t : string) (s : state) : Prop :=
  ∃ c, callers s !! i = Some c ∧
       (tokenChan c = Some t ∨ at_ c = Returned t None).

(** The routine receives the channel of caller [i]: through its own select,
    or woken by the caller's send. *)
Definition accepts (i : nat) (s : state) (l : label) : Prop :=
  l = RoutineSelect (RRecv i) ∨
  (l = CallerSelect i CComm ∧ ∃ c, callers s !! i = Some c ∧ at_ c = Handoff).

(** The handoff of caller [i] has not been received yet: the call has not
    begun, or stands in its first select. *)
Definition not_accepted (s : state) (i : nat) : Prop :=
  match callers s !! i with
  | None => True
  | Some c => at_ c = Handoff ∨ at_ c = HandoffParked
  end.

(** Every token handed to a caller in [P] is [tk]. *)
Definition served_with (tk : string) (P : nat → Prop) (s : state) : Prop :=
  ∀ i c t, P i → callers s !! i = Some c →
    tokenChan c = Some t ∨ at_ c = Returned t None → t = tk.

(** The result of caller [i]'s call of [token]. *)
Definition result (s : state) (i : nat) : option (string * option error) :=
  c ← callers s !! i;
  match at_ c with
  | Returned tok err => Some (tok, err)
  | _ => None
  end.

Definition ErrClosed : error := Sentinel closer_ErrClosed.

(** The expiry is near enough to the clock for the delay to be a Duration
    (within about 292 years). *)
Definition in_range (now expires : Time) : Prop :=
  minDuration + 5 * Second ≤ expires - now ≤ maxDuration.

Definition with_interval (d : Duration) (o : Options) : Options :=
  {| RemoteAddr := RemoteAddr o; Username := Username o;
     Password := Password o; TimeBetweenLoginAttemps := d |}.

(** The request with its Authorization header removed. *)
Definition without_authorization (req : Request) : Request :=
  {| Method := Method req; URL := URL req;
     Header := delete "Authorization" (Header req); ReqBody := ReqBody req |}.

(** The Authorization header of the request a builder returns, if any. *)
Definition authorization (built : option Request * option error) : option string :=
  built.1 ≫= λ req, Header req !! "Authorization".

(** The builder [build], given what [c.token(ctx)] returns, drops the error
    of a failed token fetch: it returns what it returns with a working
    token, without the Authorization header. *)
Definition drops_token_error (tok tok' : string) (err : error)
    (build : string * option error → option Request * option error) : Prop :=
  build (tok, Some err)
  = (without_authorization <$> (build (tok', None)).1, (build (tok', None)).2)
  ∧ authorization (build (tok, Some err)) = None.

(** An error made by [fmt.Errorf] without %w. *)
Definition fresh_error (err : option error) : Prop :=
  match err with
  | None => True
  | Some e => ∃ text, e = errorString text
  end.

(** ** The notions of the request plumbing *)

(** The request [loginOrRegister] hands to the transport: a POST of the
    encoded parameters with the two headers it sets. *)
Definition form_request (url body : string) : Request :=
  Header_Set "Accept" "application/json"
    (Header_Set "Content-Type" "application/x-www-form-urlencoded"
       {| Method := "POST"; URL := url; Header := ∅; ReqBody := body |}).

(** The public response [load] makes of a decoded login response: the
    expiry is what [time.Parse] returns, the zero time when it fails. *)
Definition loaded (l : loginResponse.t) : LoginResponse.t :=
  {| LoginResponse.ID := loginResponse.ID l;
     LoginResponse.Token := loginResponse.Token l;
     LoginResponse.TokenExpires :=
       (Parse_RFC3339 (loginResponse.TokenExpires l)).1 |}.

(** The result [call] of a login or registration is what [loginOrRegister]
    makes of the answer of the transport [f] to the request [req]: the
    error of a URL that is rejected, of a transport that fails, of a status
    other than 200 and 400, and the loaded response of a 200 answer that
    decodes. *)
Definition login_answered (url_Parse : string → option error)
    (f : Request → Response + error) (req : Request)
    (call : LoginResponse.t * option error) : Prop :=
  match url_Parse (URL req) with
  | Some e =>
      call = (LoginResponse.zero,
              Some (errorString ("failed to create new request: " +:+ Error e)))
  | None =>
      match f req with
      | inr e =>
          call = (LoginResponse.zero,
                  Some (errorString ("failed to send POST request: " +:+ Error e)))
      | inl resp =>
          (StatusCode resp ≠ StatusOK → StatusCode resp ≠ StatusBadRequest →
           call = (LoginResponse.zero,
                   Some (errorString
                           ("unexpected status code '" +:+ pretty (StatusCode resp)
                            +:+ "' received")))) ∧
          (∀ raw j l, StatusCode resp = StatusOK →
             Body resp = Bytes raw (inl j) → unmarshal j zero = (l, None) →
             call = (loaded l, None))
      end
  end.

(** What decoding the body [doc] into [dst] fails with, if it fails. *)
Definition decode_error `{Unmarshal T} (doc : json + error) (dst : T)
  : option error :=
  match doc with
  | inl j => (unmarshal j dst).2
  | inr err => Some err
  end.

(** The request [http.NewRequestWithContext] returns: no header is set. *)
Definition new_request (method url body : string) : Request :=
  {| Method := method; URL := url; Header := ∅; ReqBody := body |}.

(** The request [req] points to after [c.authenticateRequest(ctx, req)]. *)
Definition authenticated (token : string * option error) (req : Request)
  : Request :=
  (authenticateRequest token req).1.

(** What decoding the body [doc] leaves in the destination [dst]. *)
Definition decoded `{Unmarshal T} (doc : json + error) (dst : T) : T :=
  match doc with
  | inl j => (unmarshal j dst).1
  | inr _ => dst
  end.

(** The label is a step of a goroutine calling [token], or the end of its
    context. *)
Definition caller_label (l : label) : bool :=
  match l with
  | Fetch _ _ | Cancel _ _ | CallerSelect _ _ => true
  | _ => false
  end.

(** The routine is inside the [loginUntilSuccess] of a renewal. *)
Definition renewal_in_progress (s : state) : bool :=
  match pc s with
  | LoginCall Renew | Sleeping Renew _ | Returning Renew _ => true
  | _ => false
  end.

(** The member [kv] of a JSON object holds a string. *)
Definition string_member (kv : string * json) : Prop :=
  ∃ s, kv.2 = JString s.

(** ** A scenario: two logins, ten seconds of validity *)

Module Scenario.

(** Every URL is well formed, and form values need no escaping. *)
Definition form_text (params : list (string * string)) : string :=
  foldr (λ kv acc, kv.1 +:+ "=" +:+ kv.2 +:+ "&" +:+ acc) EmptyString params.

Definition surroundings : Surroundings :=
  {| env_url_Parse := λ _, None; env_url_Values_Encode := form_text |}.

Definition options : Options :=
  {| RemoteAddr := "https://wekan.example"; Username := "user";
     Password := "secret"; TimeBetweenLoginAttemps := 0 |}.

(** 2023-05-17T12:30:00Z. *)
Definition t0 : Time := 1684326600000000000.

(** The text of a JSON object whose values are strings. *)
Definition member_text (kv : string * string) : string :=
  quote +:+ kv.1 +:+ quote +:+ ":" +:+ quote +:+ kv.2 +:+ quote.

Fixpoint members_text (members : list (string * string)) : string :=
  match members with
  | [] => EmptyString
  | [kv] => member_text kv
  | kv :: rest => member_text kv +:+ "," +:+ members_text rest
  end.

Definition object_text (members : list (string * string)) : string :=
  "{" +:+ members_text members +:+ "}".

(** The server answers 200 with a login object. *)
Definition answer (user tok expires : string) : Response + error :=
  let members := [("id", user); ("token", tok); ("tokenExpires", expires)] in
  inl {| StatusCode := StatusOK;
         Body := Bytes (object_text members)
                   (inl (JObject ((λ kv, (kv.1, JString kv.2)) <$> members))) |}.

Definition first_login := answer "u1" "t1" "2023-05-17T12:30:10Z".
Definition second_login := answer "u2" "t2" "2023-05-17T12:30:16Z".
Definition refused : Response + error :=
  inr (url_Error "Post" "https://wekan.example/users/login"
         (errorString "connection refused")).

(** A body that stops in the middle of the object. *)
Definition truncated : Response + error :=
  inl {| StatusCode := StatusOK;
         Body := Bytes "{" (inr (json_SyntaxError "unexpected end of JSON input")) |}.

Definition start : state := NewClient options t0.

Abbreviation takes := (@step surroundings).
Abbreviation runs := (@run surroundings).
Abbreviation reached := (@reachable surroundings).

(** The state after the labels [ls], from [NewClient]. *)
Definition after (ls : list label) : state := default start (runs start ls).

(** Caller 0 fetches a token from a routine blocked in its select; the
    routine has received the handoff and is about to reply. *)
Definition handoff_received : list label :=
  [LoginAnswer first_login; Return; RoutineSelect RBlock;
   Fetch 0 None; CallerSelect 0 CComm].

(** The routine is up; then two fetches are served. *)
Definition serving : list label :=
  [LoginAnswer first_login; Return; RoutineSelect RBlock].

Definition two_fetches : list label :=
  [Fetch 0 None; CallerSelect 0 CComm; Send; CallerSelect 0 CComm;
   Fetch 1 None; CallerSelect 1 CBlock; RoutineSelect (RRecv 1); Send;
   CallerSelect 1 CComm].

(** A fetch is blocked in its first select when the client is closed. *)
Definition closed_while_waiting : list label :=
  [LoginAnswer first_login; Return; Fetch 0 None; CallerSelect 0 CBlock; Close].

(** The server is down until the client is closed. *)
Definition never_logged_in : list label :=
  [LoginAnswer refused; Advance Second; Wake; LoginAnswer refused;
   Close; CtxCancel; Advance Second; Wake; LoginAnswer refused].

(** Caller 0 has fetched the first token; then the timer has fired and the
    second login has just succeeded. *)
Definition renewing : list label :=
  [LoginAnswer first_login; Return; RoutineSelect RBlock;
   Fetch 0 None; CallerSelect 0 CComm; Send; CallerSelect 0 CComm;
   RoutineSelect RBlock; Advance (6 * Second); Fire;
   LoginAnswer second_login].

(** The scenario of the specification: a token is fetched at 12:30:00, the
    clock is advanced by six seconds, the renewal runs, and a token is
    fetched again. *)
Definition fetch_renew_fetch : list label :=
  [LoginAnswer first_login; Return; RoutineSelect RBlock;
   Fetch 0 None; CallerSelect 0 CComm; Send; CallerSelect 0 CComm;
   RoutineSelect RBlock; Advance (6 * Second); Fire;
   LoginAnswer second_login; Return; RoutineSelect RBlock;
   Fetch 1 None; CallerSelect 1 CComm; Send; CallerSelect 1 CComm].

(** A token that is valid for three seconds. *)
Definition short_lived := answer "u1" "t1" "2023-05-17T12:30:03Z".

(** A login object without a token. *)
Definition tokenless : Response :=
  let members := [("id", "u1"); ("tokenExpires", "2023-05-17T12:30:10Z")] in
  {| StatusCode := StatusOK;
     Body := Bytes (object_text members)
               (inl (JObject ((λ kv, (kv.1, JString kv.2)) <$> members))) |}.

(** A login object whose expiry is a number. *)
Definition mistyped_text : string :=
  "{" +:+ member_text ("token", "t1") +:+ ","
  +:+ quote +:+ "tokenExpires" +:+ quote +:+ ":1684326610}".

Definition mistyped : Response :=
  {| StatusCode := StatusOK;
     Body := Bytes mistyped_text
               (inl (JObject [("token", JString "t1");
                              ("tokenExpires", JNumber "1684326610")])) |}.

(** An address given without a scheme, as host and port.  [url.Parse]
    takes no scheme from a URL that begins with a digit, and then rejects a
    first path segment, the text up to the first slash, that holds a colon.
    The other URLs of the scenario are well formed. *)
Fixpoint colon_in_first_segment (url : string) : bool :=
  match url with
  | EmptyString => false
  | String a rest =>
      if Ascii.eqb a ":" then true
      else if Ascii.eqb a "/" || Ascii.eqb a "?" || Ascii.eqb a "#" then false
      else colon_in_first_segment rest
  end.

Definition begins_with_digit (url : string) : bool :=
  match url with
  | String a _ => bool_decide (is_Some (digit a))
  | EmptyString => false
  end.

Definition no_scheme : Surroundings :=
  {| env_url_Parse := λ url,
       if begins_with_digit url && colon_in_first_segment url then
         Some (url_Error "parse" url
                 (errorString "first path segment in URL cannot contain colon"))
       else None;
     env_url_Values_Encode := form_text |}.

Definition no_scheme_options : Options :=
  {| RemoteAddr := "127.0.0.1:8080"; Username := "user";
     Password := "secret"; TimeBetweenLoginAttemps := Second |}.

(** Path segments that need no cleaning, joined as [filepath.Join] joins
    them: the empty ones are left out. *)
Definition join (segments : list string) : string :=
  match filter (λ sg, sg ≠ EmptyString) segments with
  | [] => EmptyString
  | sg :: rest => foldl (λ acc x, acc +:+ "/" +:+ x) sg rest
  end.

(** A transport that answers every request with the same response. *)
Definition always (resp : Response) : Request → Response + error :=
  λ _, inl resp.

(** Caller 0 is blocked in its first select, the routine being on its way
    to its own. *)
Definition fetch_waiting : list label :=
  [LoginAnswer first_login; Return; Fetch 0 None; CallerSelect 0 CBlock].

(** The first login has failed and the client is closed during the sleep. *)
Definition closed_asleep : list label :=
  [LoginAnswer refused; Close; CtxCancel; Advance (Second / 2)].

(** The timer has fired and the renewal is in flight. *)
Definition renewal_in_flight : list label :=
  [LoginAnswer first_login; Return; RoutineSelect RBlock;
   Advance (6 * Second); Fire].

End Scenario.

(** The claim C3 as stated: a token fetch issued after shutdown fails with
    the closed error. *)
Definition fetch_after_shutdown_fails_closed : Prop :=
  ∀ s i ended cc s1 s2,
    Scenario.reached s → closing s = true →
    Scenario.takes s (Fetch i ended) = Some s1 →
    Scenario.takes s1 (CallerSelect i cc) = Some s2 →
    result s2 i = Some ("", Some ErrClosed).

(** The claim C4 as stated: an armed timer fires at expiresAt - 5s. *)
Definition timer_fires_at_margin : Prop :=
  ∀ s w, Scenario.reached s → timer s = Some w →
    w = tokenExpires s - 5 * Second.

(** The claim C7 as stated: the token, the expiry and the user id that can
    be observed belong to one login. *)
Definition session_is_one_login : Prop :=
  ∀ s, Scenario.reached s → constructed s = true → pc s ≠ Exited →
    ∃ r, r ∈ logins s ∧ token s = LoginResponse.Token r ∧
         tokenExpires s = LoginResponse.TokenExpires r ∧
         GetCurrentUserID s = LoginResponse.ID r.

(** * Properties *)

Example Parse_epoch : Parse_RFC3339 "1970-01-01T00:00:00Z" = (0, None).
Proof. reflexivity. Qed.

Example Parse_year_one : Parse_RFC3339 "0001-01-01T00:00:00Z" = (Time_zero, None).
Proof. reflexivity. Qed.

Example Parse_offset :
  Parse_RFC3339 "2023-05-17T12:30:00.5+02:00" = (1684319400500000000, None).
Proof. reflexivity. Qed.

Example Parse_garbage :
  Parse_RFC3339 "tomorrow" = (Time_zero, Some (time_ParseError "tomorrow")).
Proof. reflexivity. Qed.

(** The hour may be one digit; a zone offset of 24 hours or of 60 minutes
    is let through, a larger one is not. *)
Example Parse_short_hour :
  Parse_RFC3339 "2023-05-17T1:30:10Z" = Parse_RFC3339 "2023-05-17T01:30:10Z" ∧
  (Parse_RFC3339 "2023-05-17T1:30:10Z").2 = None.
Proof. split; reflexivity. Qed.

Example Parse_wide_zone :
  (Parse_RFC3339 "2023-05-17T12:30:10+24:00").2 = None ∧
  (Parse_RFC3339 "2023-05-17T12:30:10+02:60").2 = None ∧
  (Parse_RFC3339 "2023-05-17T12:30:10+25:00").2
  = Some (time_ParseError "2023-05-17T12:30:10+25:00").
Proof. repeat split; reflexivity. Qed.

Example ParseError_texts :
  Error (time_ParseError "tomorrow")
  = "parsing time " +:+ quote +:+ "tomorrow" +:+ quote +:+ " as " +:+ quote
    +:+ RFC3339 +:+ quote +:+ ": cannot parse " +:+ quote +:+ "tomorrow"
    +:+ quote +:+ " as " +:+ quote +:+ "2006" +:+ quote ∧
  Error (time_ParseError "2023-02-30T12:30:10Z")
  = "parsing time " +:+ quote +:+ "2023-02-30T12:30:10Z" +:+ quote
    +:+ ": day out of range" ∧
  Error (time_ParseError "2023-05-17T12:30:10+25:00")
  = "parsing time " +:+ quote +:+ "2023-05-17T12:30:10+25:00" +:+ quote
    +:+ ": time zone offset hour out of range".
Proof. repeat split; reflexivity. Qed.

(** Keys fold as Unicode does: the Kelvin sign is a k, the long s an s. *)
Example same_key_folds :
  let kelvin := String (ascii_of_nat 226) (String (ascii_of_nat 132)
                  (String (ascii_of_nat 170) EmptyString)) in
  let long_s := String (ascii_of_nat 197) (String (ascii_of_nat 191)
                  EmptyString) in
  same_key ("to" +:+ kelvin +:+ "en") "token" = true ∧
  same_key ("TokenExpire" +:+ long_s) "tokenExpires" = true ∧
  same_key "TOKEN" "token" = true ∧
  same_key ("to" +:+ kelvin +:+ "en") "tokenExpires" = false.
Proof. repeat split; reflexivity. Qed.

(** An int field takes the integers of 64 bits. *)
Example set_int_range :
  set_int "badRequestResponse" "error" (JNumber "403") 0 = (403, None) ∧
  set_int "badRequestResponse" "error" (JNumber "9223372036854775808") 0
  = (0, Some (json_UnmarshalTypeError "number 9223372036854775808"
                "badRequestResponse" "error" "int")) ∧
  set_int "badRequestResponse" "error" (JNumber "4.5") 0
  = (0, Some (json_UnmarshalTypeError "number 4.5"
                "badRequestResponse" "error" "int")).
Proof. repeat split; reflexivity. Qed.

Section ManagerFacts.

Context {env : Surroundings}.

(** *** Invariants of the runs *)

Ltac unfold_step :=
  unfold step, loginUntilSuccess, connectionRoutine_select,
    connectionRoutine_send, token_select, wake,
    no_handoff_parked, routine_parked, constructed, parked in *.

Lemma run_app s ls1 ls2 :
  run s (ls1 ++ ls2)%list = run s ls1 ≫= λ s1, run s1 ls2.
Proof.
  revert s. induction ls1 as [|l ls1 IH]; intros s; simpl; [done|].
  destruct (step s l); simpl; auto.
Qed.

(** A property of the initial states that every step keeps holds in every
    reachable state. *)
Lemma run_invariant (P : state → Prop) :
  (∀ s l s', P s → step s l = Some s' → P s') →
  ∀ ls s s', P s → run s ls = Some s' → P s'.
Proof.
  intros Hstep. induction ls as [|l ls IH]; intros s s' HP Hrun; simpl in *.
  - by simplify_eq.
  - destruct (step s l) as [s1|] eqn:E; [|done]. eauto.
Qed.

Lemma reachable_invariant (P : state → Prop) :
  (∀ o t0, P (NewClient o t0)) →
  (∀ s l s', P s → step s l = Some s' → P s') →
  ∀ s, reachable s → P s.
Proof.
  intros H0 Hstep s (o & t0 & ls & Hrun).
  eapply run_invariant; eauto.
Qed.

Lemma reachable_step s l s' :
  reachable s → step s l = Some s' → reachable s'.
Proof.
  intros (o & t0 & ls & Hrun) Hs. exists o, t0, (ls ++ [l])%list.
  rewrite run_app, Hrun. simpl. by rewrite Hs.
Qed.

Lemma reachable_run s ls s' :
  reachable s → run s ls = Some s' → reachable s'.
Proof.
  intros (o & t0 & ls0 & Hrun) Hs. exists o, t0, (ls0 ++ ls)%list.
  by rewrite run_app, Hrun.
Qed.

Ltac insert_cases :=
  repeat match goal with
  | H : <[_:=_]> _ !! _ = Some _ |- _ =>
      apply lookup_insert_Some in H as [[-> <-]|[? ?]]
  end.

Ltac use_callers H :=
  unfold parked, set_at, set_tokenChan, set_ctxErr in *; simpl in *;
  try match goal with
  | E : ?cs !! ?i = Some ?c |- _ =>
      let X := fresh in
      pose proof (H eq_refl _ _ E) as X; simpl in X;
      repeat case_match; simplify_eq; try done; congruence
  end.

Lemma shutdown_inv_step s l s' :
  shutdown_inv s → step s l = Some s' → shutdown_inv s'.
Proof.
  intros [H1 H2 H3 H4 H5] Hs.
  destruct s as [o n cl cd uid p tok exp tm tk cs lg]; simpl in *.
  destruct l; unfold_step; simpl in *.
  - simplify_eq. split; simpl; try done.
    + destruct p; done.
    + intros _ i c. rewrite lookup_fmap.
      destruct (cs !! i) as [c0|] eqn:E; simpl; [|done].
      intros [= <-]. destruct c0 as [[] ? ?]; simpl; done.
    + destruct p; naive_solver.
  - destruct cl; simplify_eq. split; simpl; naive_solver.
  - case_match; simplify_eq. split; simpl; auto.
  - repeat case_match; simplify_eq; split; simpl; eauto; naive_solver.
  - repeat case_match; simplify_eq; split; simpl; eauto; naive_solver.
  - repeat case_match; simplify_eq; split; simpl; eauto; naive_solver.
  - repeat case_match; simplify_eq; split; simpl; eauto; naive_solver.
  - repeat case_match; simplify_eq; split; simpl; intros;
      insert_cases; simplify_eq; eauto; try done.
  - repeat case_match; simplify_eq; split; simpl; intros;
      insert_cases; simplify_eq; eauto; try done.
    all: destruct cd; try done; use_callers H3.
  - repeat case_match; simplify_eq; split; simpl; intros;
      insert_cases; simplify_eq; eauto; try done.
    all: destruct cd; try done; use_callers H3.
  - repeat case_match; simplify_eq; split; simpl; intros;
      insert_cases; simplify_eq; eauto; try done.
    all: destruct cd; try done; use_callers H3.
  - repeat case_match; simplify_eq; split; simpl; intros;
      insert_cases; simplify_eq; eauto; try done.
Qed.

Ltac lookup_cases :=
  repeat match goal with
  | H : <[_:=_]> _ !! _ = Some _ |- _ =>
      apply lookup_insert_Some in H as [[-> <-]|[? ?]]
  | H : (_ <$> _) !! _ = Some _ |- _ =>
      apply lookup_fmap_Some in H as (? & <- & ?)
  | H : ∅ !! _ = Some _ |- _ => by rewrite lookup_empty in H
  end.

Ltac caller_simpl :=
  unfold accepted, wake, parked, set_at, set_tokenChan, set_ctxErr in *; simpl in *.

Ltac decide_hyps :=
  repeat match goal with
  | H : bool_decide _ = true |- _ => apply bool_decide_eq_true in H
  | H : bool_decide _ = false |- _ => apply bool_decide_eq_false in H
  | H : negb _ = true |- _ => apply negb_true_iff in H
  | H : _ && _ = true |- _ => apply andb_true_iff in H as [? ?]
  end.

Ltac inv_crush :=
  repeat case_match; simplify_eq; decide_hyps; split; simpl; intros;
  lookup_cases; simplify_eq; caller_simpl; eauto; try done.

(** The buffer of a caller that has not handed its channel over is empty. *)
Ltac slot_none H :=
  match goal with
  | |- tokenChan ?c = None =>
      destruct (tokenChan c) eqn:?; [|done];
      match goal with
      | E : _ !! _ = Some c, T : tokenChan c = Some _ |- _ =>
          destruct (H _ _ _ E T) as [?|[? ?]]; congruence
      end
  end.

Ltac position_known :=
  repeat match goal with
  | H : at_ ?c = _ |- _ => progress (rewrite H in * |-)
  | H : at_ ?c = _ |- _ => progress (rewrite H)
  end; simpl in *; try done; try congruence.

(** The caller the routine is about to answer is still there after a step
    of some caller. *)
Ltac reply_goal H :=
  match goal with
  | |- ∃ c, <[?i:=?x]> ?cs !! ?j = Some c ∧ _ =>
      destruct (H _ eq_refl) as (? & ? & ? & ?);
      destruct (decide (i = j)) as [->|];
      [ try (by simplify_eq);
        eexists; rewrite lookup_insert_eq; (split; [done|]);
        simplify_eq; simpl; position_known; eauto 8
      | eexists; rewrite lookup_insert_ne by done; eauto ]
  end.

(** Before the client is constructed there is no caller. *)
Ltac no_caller :=
  match goal with
  | H : _ → ?cs = ∅, E : ?cs !! _ = Some _ |- _ =>
      rewrite H in E by done; by rewrite lookup_empty in E
  end.

Ltac slot_absurd H :=
  match goal with
  | E : _ !! _ = Some ?c, T : tokenChan ?c = Some _ |- _ =>
      destruct (H _ _ _ E T) as [?|[? ?]]; congruence
  end.

Ltac reply_absurd H :=
  destruct (H _ eq_refl) as (? & ? & ? & [?|[?|[? ?]]]); simplify_eq; congruence.

Lemma broker_inv_step s l s' :
  broker_inv s → step s l = Some s' → broker_inv s'.
Proof.
  intros [H1 H2 H3 H4 H5] Hs.
  destruct s as [o n cl cd uid p tok exp tm tk cs lg]; simpl in *.
  destruct l; unfold_step; simpl in *.
  - simplify_eq. split; simpl; intros; lookup_cases.
    + destruct p; naive_solver.
    + assert (p = Reply i) as -> by (destruct p; congruence).
      destruct (H2 _ eq_refl) as (c & E & ? & Hc).
      exists (wake (Sentinel closer_ErrClosed) c). rewrite lookup_fmap, E. caller_simpl.
      split; [done|]. repeat case_match; naive_solver.
    + caller_simpl. destruct (at_ x) eqn:Ex; simpl in *; eauto.
      all: destruct (H3 _ _ _ H H0) as [?|[? ?]]; congruence.
    + rewrite H4; [apply fmap_empty|]. destruct p; try done.
    + caller_simpl. destruct (at_ x) eqn:Ex; simpl in *; eauto.
      all: try (eapply H5; eauto; rewrite Ex; done).
  - inv_crush.
  - inv_crush.
  - inv_crush.
  - inv_crush.
  - inv_crush.
  - inv_crush.
  - inv_crush.
    eexists. rewrite lookup_insert_eq. split; [done|]. simpl. split; [slot_none H3|eauto].
  - inv_crush.
    all: destruct (H2 _ eq_refl) as (c' & E' & ? & ?); simplify_eq; try congruence.
    naive_solver.
  - inv_crush. destruct (H2 _ eq_refl) as (? & ? & ? & ?).
      destruct (decide (i = i1)) as [->|];
      [ simplify_eq
      | eexists; rewrite lookup_insert_ne by done; eauto ].
  - inv_crush. all: try no_caller. all: position_known. all: try reply_goal H2.
  - inv_crush. all: try no_caller. all: position_known.
    all: try reply_goal H2. all: try slot_none H3.
    all: try slot_absurd H3. all: try reply_absurd H2.
    eexists; rewrite lookup_insert_eq; split; [done|]; simpl; split; [slot_none H3 | eauto].
Qed.

Ltac timer_goal H :=
  match goal with
  | |- ∃ t0, t0 ≤ _ ∧ ?w = _ =>
      destruct (H _ eq_refl) as (t0 & ? & ?); exists t0;
      repeat match goal with
      | L : (_ <=? _) = true |- _ => apply Z.leb_le in L
      end; split; [lia|done]
  end.

Ltac tick_off :=
  match goal with
  | H : ?tk = true → Some _ = None |- _ ∧ ?tk = false =>
      split; [done|]; destruct tk; [by specialize (H eq_refl)|done]
  end.

Ltac session_goal :=
  unfold session_of, adopted in *; simpl in *;
  destruct_and?;
  repeat match goal with H : ∃ _, _ |- _ => destruct H end;
  destruct_and?; simplify_eq; eauto 10.

Ltac absurd_hyps := try (destruct_and?; congruence).

Lemma session_inv_step s l s' :
  session_inv s → step s l = Some s' → session_inv s'.
Proof.
  intros [H1 H2 H3 H4] Hs. unfold session_of, adopted in *.
  destruct s as [o n cl cd uid p tok exp tm tk cs lg]; simpl in *.
  destruct l; unfold_step; simpl in *.
  - inv_crush. all: session_goal.
  - inv_crush.
  - inv_crush. all: absurd_hyps. all: timer_goal H2.
  - inv_crush. all: absurd_hyps. all: try timer_goal H2. tick_off.
  - inv_crush. all: absurd_hyps. all: try timer_goal H2. all: session_goal.
  - inv_crush. all: absurd_hyps. all: try timer_goal H2. all: try tick_off. all: session_goal.
  - inv_crush. all: absurd_hyps. all: try timer_goal H2. all: try tick_off.
    all: session_goal. all: exists n; split; [lia|done].
  - inv_crush. all: absurd_hyps. all: try timer_goal H2. all: try tick_off. all: session_goal.
  - inv_crush. all: absurd_hyps. all: try timer_goal H2. all: try tick_off. all: session_goal.
  - inv_crush. all: absurd_hyps. all: try timer_goal H2. all: try tick_off. all: session_goal.
  - inv_crush. all: absurd_hyps. all: try timer_goal H2. all: try tick_off. all: session_goal.
  - inv_crush. all: absurd_hyps. all: try timer_goal H2. all: try tick_off. all: session_goal.
Qed.

Ltac issued_goal H :=
  match goal with
  | |- ∃ r, r ∈ _ ∧ _ = LoginResponse.Token r =>
      first
        [ by eapply H; eauto
        | edestruct H as (r & ? & ?); [by eauto..|];
          exists r; split; [set_solver|done] ]
  end.

Ltac results_crush H1 H2 :=
  inv_crush; unfold issued in *; simpl in *; eauto;
  try issued_goal H1; try issued_goal H2.

Lemma results_inv_step s l s' :
  session_inv s → results_inv s → step s l = Some s' → results_inv s'.
Proof.
  intros [S1 _ _ _] [H1 H2 H3 H4] Hs. unfold issued in *.
  destruct s as [o n cl cd uid p tok exp tm tk cs lg]; simpl in *.
  destruct l; unfold_step; simpl in *.
  - simplify_eq. split; unfold issued; simpl; intros; lookup_cases; caller_simpl.
    all: repeat case_match; simpl in *; simplify_eq; eauto.
    all: try (edestruct H3 as (? & [[? ?]|?]); by eauto).
  - results_crush H1 H2.
  - results_crush H1 H2.
  - results_crush H1 H2.
  - results_crush H1 H2.
  - results_crush H1 H2. 
  - results_crush H1 H2. 
  - results_crush H1 H2. 
  - results_crush H1 H2. 
    all: unfold session_of, adopted in S1; simpl in S1;
      destruct S1 as (r & rest & -> & _ & -> & _); simplify_eq;
      exists r; split; [set_solver|done].
  - results_crush H1 H2. all: destruct ended; simplify_eq/=; eauto.
  - results_crush H1 H2. all: simplify_eq; eauto.
    all: try (edestruct H3 as (? & [[? ?]|?]); [by eauto..| |]; simplify_eq; eauto; congruence).
  - results_crush H1 H2. all: simplify_eq; eauto.
Qed.

Lemma invariants_init o t0 : invariants (NewClient o t0).
Proof.
  split; split; simpl; try done; intros; lookup_cases.
Qed.

Lemma invariants_step s l s' :
  invariants s → step s l = Some s' → invariants s'.
Proof.
  intros [] ?. split;
    eauto using shutdown_inv_step, broker_inv_step, session_inv_step,
      results_inv_step.
Qed.

Lemma reachable_invariants s : reachable s → invariants s.
Proof.
  apply reachable_invariant; eauto using invariants_init, invariants_step.
Qed.

(** No step changes the options of the client. *)
Lemma step_opts s l s' : step s l = Some s' → opts s' = opts s.
Proof.
  intros Hs. destruct s; destruct l; unfold_step; simpl in *;
    repeat case_match; by simplify_eq.
Qed.

Lemma run_opts ls s s' : run s ls = Some s' → opts s' = opts s.
Proof.
  revert s. induction ls as [|l ls IH]; intros s Hr; simpl in *.
  - by simplify_eq.
  - destruct (step s l) as [s1|] eqn:E; [|done].
    rewrite (IH _ Hr). eauto using step_opts.
Qed.

(** The successful logins only accumulate. *)
Lemma step_logins s l s' :
  step s l = Some s' → ∃ new, logins s' = (new ++ logins s)%list.
Proof.
  intros Hs. destruct s; destruct l; unfold_step; simpl in *;
    repeat case_match; simplify_eq; simpl;
    first [by exists [] | by eexists [_]].
Qed.

Lemma run_logins ls s s' :
  run s ls = Some s' → ∃ new, logins s' = (new ++ logins s)%list.
Proof.
  revert s. induction ls as [|l ls IH]; intros s Hr; simpl in *.
  - simplify_eq. by exists [].
  - destruct (step s l) as [s1|] eqn:E; [|done].
    destruct (IH _ Hr) as [n2 ->]. destruct (step_logins _ _ _ E) as [n1 ->].
    exists (n2 ++ n1)%list. by rewrite app_assoc.
Qed.

(** *** The token broker *)

Lemma send_from_reply s i :
  invariants s → pc s = Reply i →
  ∃ s', step s Send = Some s' ∧ pc s' = Select ∧ token s' = token s ∧
        logins s' = logins s ∧ delivered i (token s) s'.
Proof.
  intros [_ [_ Hr _ _ _] _ _] Hpc.
  destruct (Hr _ Hpc) as (c & Hc & Hslot & _).
  unfold step, connectionRoutine_send, delivered. rewrite Hpc, Hc, Hslot.
  case_bool_decide; eexists; (split; [done|]); simpl;
    split_and!; try done; eexists; rewrite lookup_insert_eq; eauto.
Qed.

Lemma accepts_step s i l s' :
  accepts i s l → step s l = Some s' → pc s' = Reply i ∧ token s' = token s.
Proof.
  intros [->|[-> (c & Hc & Hat)]] Hs; unfold_step; simpl in *;
    repeat case_match; simplify_eq/=; try done; congruence.
Qed.

Lemma reply_pending_step s i l s' :
  pc s = Reply i → step s l = Some s' → l ≠ Send →
  pc s' = Reply i ∧ token s' = token s.
Proof.
  intros Hpc Hs Hl. destruct s; destruct l; unfold_step; simpl in *;
    simplify_eq; repeat case_match; simplify_eq/=; done.
Qed.

Lemma served_with_step tk P s l s' :
  (∀ i, pc s = Reply i → token s = tk) →
  served_with tk P s → step s l = Some s' → served_with tk P s'.
Proof.
  intros Htk H Hs. unfold served_with in *.
  destruct s as [o n cl cd uid p tok exp tm tk' cs lg]; simpl in *.
  destruct l; unfold_step; simpl in *.
  all: repeat case_match; simplify_eq; simpl; intros; lookup_cases;
    simplify_eq; caller_simpl; eauto.
  all: repeat case_match; simplify_eq/=; eauto.
  all: try (destruct_or?; simplify_eq; eauto; fail).
Qed.

(** While it is about to reply, the routine holds the token of the latest
    login. *)
Lemma reply_token s i :
  invariants s → pc s = Reply i →
  ∃ r rest, logins s = r :: rest ∧ token s = LoginResponse.Token r.
Proof.
  intros [_ _ [Hs _ _ _] _] Hpc. unfold session_of, adopted in Hs.
  rewrite Hpc in Hs. destruct Hs as (r & rest & ? & _ & ? & _). eauto.
Qed.

Lemma served_with_run tk P r rest ls :
  ∀ s s', reachable s → run s ls = Some s' →
    logins s = r :: rest → logins s' = logins s →
    tk = LoginResponse.Token r →
    served_with tk P s → served_with tk P s'.
Proof.
  induction ls as [|l ls IH]; intros s s' Hreach Hrun Hlog Heq Htk Hserved;
    simpl in *.
  - by simplify_eq.
  - destruct (step s l) as [s1|] eqn:E; [|done].
    destruct (step_logins _ _ _ E) as [n1 Hn1].
    destruct (run_logins _ _ _ Hrun) as [n2 Hn2].
    assert (n1 = []) as ->.
    { rewrite Hn2, Hn1, app_assoc in Heq.
      apply (f_equal length) in Heq. rewrite !length_app in Heq.
      destruct n1; simpl in *; [done|lia]. }
    simpl in Hn1. eapply (IH s1); eauto using reachable_step; try congruence.
    eapply served_with_step; eauto.
    intros i Hpc. destruct (reply_token s i) as (r' & rest' & ? & ?);
      auto using reachable_invariants. congruence.
Qed.

(** The receive of the second select of [token] returns the token that is
    in the buffer of the caller's channel. *)
Lemma await_receives s i c t :
  callers s !! i = Some c → at_ c = Await → tokenChan c = Some t →
  ∃ s', step s (CallerSelect i CComm) = Some s' ∧ result s' i = Some (t, None).
Proof.
  intros Hi Hat Ht. simpl. unfold token_select. rewrite Hi, Hat, Ht.
  eexists. split; [done|]. unfold result. simpl. by rewrite lookup_insert_eq.
Qed.

(** A caller blocked in its second select is handed the token by the send
    itself, and returns it. *)
Lemma send_to_blocked s i c :
  pc s = Reply i → callers s !! i = Some c → at_ c = AwaitParked →
  ∃ s', step s Send = Some s' ∧ result s' i = Some (token s, None).
Proof.
  intros Hpc Hi Hat. simpl. rewrite Hpc. unfold connectionRoutine_send.
  rewrite Hi, Hat. simpl. eexists. split; [done|].
  unfold result. simpl. by rewrite lookup_insert_eq.
Qed.

(** What the second select of [token] can do. *)
Lemma await_outcomes s i c cc s' :
  callers s !! i = Some c → at_ c = Await →
  step s (CallerSelect i cc) = Some s' →
  (cc = CComm ∧ ∃ t, tokenChan c = Some t ∧ result s' i = Some (t, None)) ∨
  (cc = CClosing ∧ closing s = true ∧
   result s' i = Some ("", Some ErrClosed)) ∨
  (cc = CDone ∧ ∃ e, ctxErr c = Some e ∧ result s' i = Some ("", Some e)) ∨
  (cc = CBlock ∧ tokenChan c = None ∧ closing s = false ∧ ctxErr c = None ∧
   result s' i = None ∧
   ∃ c', callers s' !! i = Some c' ∧ at_ c' = AwaitParked).
Proof.
  intros Hi Hat. simpl. unfold token_select, result. rewrite Hi, Hat.
  destruct cc.
  - destruct (closing s) eqn:Hcl; [|done]. intros [= <-]. right. left.
    simpl. by rewrite lookup_insert_eq.
  - destruct (ctxErr c) as [e|] eqn:He; [|done]. intros [= <-].
    right. right. left. split; [done|]. exists e. simpl.
    by rewrite lookup_insert_eq.
  - destruct (tokenChan c) as [t|] eqn:Ht; [|done]. intros [= <-]. left.
    split; [done|]. exists t. simpl. by rewrite lookup_insert_eq.
  - destruct (closing s) eqn:Hcl; [done|]. simpl.
    case_bool_decide as He; [|done]. case_bool_decide as Ht; [|done].
    simpl. intros [= <-]. right. right. right. simpl.
    rewrite lookup_insert_eq. simpl. split_and!; try done. by eauto.
Qed.

(** Once a call of [token] has returned, its result stays. *)
Lemma result_final s i x l s' :
  result s i = Some x → step s l = Some s' → result s' i = Some x.
Proof.
  unfold result. intros Hres Hstep.
  destruct (callers s !! i) as [c|] eqn:Hi; [|done]. simpl in Hres.
  destruct (at_ c) as [| | | |t e] eqn:Hat; try done.
  destruct l; unfold_step; simpl in *;
    repeat case_match; simplify_eq; simpl;
    rewrite ?lookup_fmap, ?Hi; simpl; rewrite ?Hat; try done;
    match goal with
    | |- context [<[?j:=_]> _ !! i] =>
        destruct (decide (j = i)) as [->|];
        [simplify_eq; rewrite lookup_insert_eq; simpl; rewrite ?Hat; try done;
         repeat match goal with
         | H : bool_decide _ = true |- _ => apply bool_decide_eq_true in H
         end; congruence
        |rewrite lookup_insert_ne by done; rewrite Hi; simpl; by rewrite Hat]
    end.
Qed.

(** C9: every token request whose handoff the routine has received gets
    exactly one token value, the one the routine holds when it receives the
    handoff.  Receiving the handoff leaves the token as it is, and so does
    every step taken before the reply; the reply itself always goes through
    (the routine is never blocked in the send, the buffer of capacity one
    being empty), it hands over that token, which is the token of a login
    that succeeded, and a caller that holds a token is not written to
    again.  The second select of [token] returns the token that is in the
    buffer, and a caller blocked in it returns the token the send hands it;
    besides, it can only return the closed error once the client is closed,
    return the error of the caller's context once that has ended, or block
    when neither is the case and the buffer is empty.  A result, once
    returned, stays. *)
Theorem accepted_request_gets_one_token s :
  reachable s →
  (∀ j, pc s ≠ SendBlocked j) ∧
  (∀ i l s', accepts i s l → step s l = Some s' →
     pc s' = Reply i ∧ token s' = token s) ∧
  (∀ i l s', pc s = Reply i → step s l = Some s' → l ≠ Send →
     pc s' = Reply i ∧ token s' = token s) ∧
  (∀ i, pc s = Reply i →
     issued s (token s) ∧
     ∃ c s', callers s !! i = Some c ∧ tokenChan c = None ∧
             step s Send = Some s' ∧ pc s' = Select ∧
             delivered i (token s) s') ∧
  (∀ i c t, callers s !! i = Some c →
     tokenChan c = Some t ∨ at_ c = Returned t None →
     issued s t ∧ pc s ≠ Reply i) ∧
  (∀ i c t, callers s !! i = Some c → at_ c = Await → tokenChan c = Some t →
     ∃ s', step s (CallerSelect i CComm) = Some s' ∧
           result s' i = Some (t, None)) ∧
  (∀ i c, pc s = Reply i → callers s !! i = Some c → at_ c = AwaitParked →
     ∃ s', step s Send = Some s' ∧ result s' i = Some (token s, None)) ∧
  (∀ i c cc s', callers s !! i = Some c → at_ c = Await →
     step s (CallerSelect i cc) = Some s' →
     (cc = CComm ∧ ∃ t, tokenChan c = Some t ∧ result s' i = Some (t, None)) ∨
     (cc = CClosing ∧ closing s = true ∧
      result s' i = Some ("", Some ErrClosed)) ∨
     (cc = CDone ∧ ∃ e, ctxErr c = Some e ∧ result s' i = Some ("", Some e)) ∨
     (cc = CBlock ∧ tokenChan c = None ∧ closing s = false ∧
      ctxErr c = None ∧ result s' i = None ∧
      ∃ c', callers s' !! i = Some c' ∧ at_ c' = AwaitParked)) ∧
  (∀ i x l s', result s i = Some x → step s l = Some s' →
     result s' i = Some x).
Proof.
  intros Hreach. pose proof (reachable_invariants _ Hreach) as Hinv.
  split_and!.
  - apply Hinv.
  - eauto using accepts_step.
  - eauto using reply_pending_step.
  - intros i Hpc. split.
    + destruct (reply_token s i) as (r & rest & Hl & ->); auto.
      exists r. rewrite Hl. split; [left|done].
    + destruct (send_from_reply s i) as (s' & ? & ? & ? & ? & ?); auto.
      destruct Hinv as [_ [_ Hr _ _ _] _ _].
      destruct (Hr _ Hpc) as (c & ? & ? & _). eauto 10.
  - intros i c t Hc Ht. split.
    + destruct Hinv as [_ _ _ [H1 H2 _ _]]. destruct Ht; eauto.
    + intros Hpc. destruct Hinv as [_ [_ Hr _ _ _] _ _].
      destruct (Hr _ Hpc) as (c' & ? & ? & Hacc). simplify_eq.
      unfold accepted in Hacc. destruct Ht; [congruence|].
      destruct Hacc as [?|[?|[e ?]]]; congruence.
  - apply await_receives.
  - apply send_to_blocked.
  - apply await_outcomes.
  - apply result_final.
Qed.

(** C2: a token request the routine has received is answered at once with
    the token it holds, the token of the latest successful login, and the
    answer performs no login.  So, over any stretch of a run in which no
    login succeeds, every fetch whose handoff was received in the stretch
    and that returned a token returned that same token: the token of the
    latest successful login. *)
Theorem token_requests_read_current_token s ls s' :
  reachable s → run s ls = Some s' → logins s' = logins s →
  (∀ i, pc s = Reply i →
     ∃ r rest s1, logins s = r :: rest ∧ token s = LoginResponse.Token r ∧
                  step s Send = Some s1 ∧ pc s1 = Select ∧
                  logins s1 = logins s ∧ delivered i (token s) s1) ∧
  (∀ i c t, not_accepted s i → callers s' !! i = Some c →
     at_ c = Returned t None →
     ∃ r rest, logins s = r :: rest ∧ t = LoginResponse.Token r).
Proof.
  intros Hreach Hrun Hlog.
  pose proof (reachable_invariants _ Hreach) as Hinv. split.
  - intros i Hpc.
    destruct (reply_token s i) as (r & rest & ? & ?); auto.
    destruct (send_from_reply s i) as (s1 & ? & ? & ? & ? & ?); auto.
    eauto 10.
  - intros i c t Hna Hc Hat.
    pose proof (reachable_invariants _ (reachable_run _ _ _ Hreach Hrun))
      as [_ _ _ [_ Htok _ _]].
    destruct (Htok _ _ _ Hc Hat) as (r1 & Hin & _).
    destruct (logins s) as [|r rest] eqn:Hl.
    { rewrite Hlog in Hin. by apply elem_of_nil in Hin. }
    exists r, rest. split; [done|].
    assert (served_with (LoginResponse.Token r) (not_accepted s) s) as Hsv.
    { intros j cj tj Hj Hcj Hslot. unfold not_accepted in Hj. rewrite Hcj in Hj.
      destruct Hinv as [_ [_ _ Hs _ _] _ _].
      destruct Hslot as [Hslot|Hret]; [|destruct Hj; congruence].
      destruct (Hs _ _ _ Hcj Hslot) as [?|[? ?]]; destruct Hj; congruence. }
    assert (logins s' = logins s) as Hlog' by congruence.
    eapply (served_with_run _ _ r rest ls s s' Hreach Hrun Hl Hlog' eq_refl Hsv);
      eauto.
Qed.

(** *** Shutdown *)

Lemma close_wakes s s' i c :
  step s Close = Some s' → callers s !! i = Some c → parked c = true →
  result s' i = Some ("", Some ErrClosed).
Proof.
  intros Hs Hc Hp. unfold step in Hs. simplify_eq. unfold result. simpl.
  rewrite lookup_fmap, Hc. simpl. unfold wake. by rewrite Hp.
Qed.

Lemma closing_case s i c :
  closing s = true → callers s !! i = Some c →
  at_ c = Handoff ∨ at_ c = Await →
  ∃ s', step s (CallerSelect i CClosing) = Some s' ∧
        result s' i = Some ("", Some ErrClosed).
Proof.
  intros Hcl Hc Hat. unfold step, token_select, result. rewrite Hc, Hcl.
  destruct Hat as [-> | ->]; eexists; (split; [done|]); simpl;
    by rewrite lookup_insert_eq.
Qed.

Lemma never_blocks_closing s i :
  closing s = true → step s (CallerSelect i CBlock) = None.
Proof.
  intros Hcl. unfold step, token_select. rewrite Hcl.
  by repeat case_match.
Qed.

(** After shutdown no handoff is received. *)
Lemma no_handoff_closing s i c :
  invariants s → closing s = true → callers s !! i = Some c →
  at_ c = Handoff → step s (CallerSelect i CComm) = None.
Proof.
  intros [[_ Hr _ _ _] _ _ _] Hcl Hc Hat. unfold step, token_select.
  rewrite Hc, Hat. specialize (Hr Hcl). by destruct (pc s).
Qed.

Lemma no_recv_closing s i :
  invariants s → closing s = true → step s (RoutineSelect (RRecv i)) = None.
Proof.
  intros [[_ _ Hc _ _] _ _ _] Hcl. unfold step, connectionRoutine_select.
  destruct (pc s); try done. destruct (callers s !! i) as [c|] eqn:E; [|done].
  case_bool_decide as Hat; [|done].
  specialize (Hc Hcl _ _ E). unfold parked in Hc. by rewrite Hat in Hc.
Qed.

Lemma fetch_after_shutdown s i ended s1 :
  invariants s → closing s = true → step s (Fetch i ended) = Some s1 →
  (∃ s2, step s1 (CallerSelect i CClosing) = Some s2 ∧
         result s2 i = Some ("", Some ErrClosed)) ∧
  step s1 (CallerSelect i CBlock) = None ∧
  step s1 (CallerSelect i CComm) = None ∧
  (∀ cc s2, step s1 (CallerSelect i cc) = Some s2 →
     result s2 i = Some ("", Some ErrClosed) ∨
     ∃ why, ended = Some why ∧ result s2 i = Some ("", Some (ctx_Err why))).
Proof.
  intros Hinv Hcl Hs.
  assert (invariants s1) as Hinv1 by eauto using invariants_step.
  assert (closing s1 = true ∧
          callers s1 !! i = Some {| at_ := Handoff; ctxErr := ctx_Err <$> ended;
                                    tokenChan := None |}) as [Hcl1 Hc1].
  { unfold step in Hs. repeat case_match; simplify_eq. simpl.
    by rewrite lookup_insert_eq. }
  split_and!.
  - eapply closing_case; eauto.
  - by apply never_blocks_closing.
  - eapply no_handoff_closing; eauto.
  - intros cc s2 Hs2. unfold step, token_select in Hs2.
    rewrite Hc1, Hcl1 in Hs2. simpl in Hs2. unfold result.
    destruct cc; simplify_eq; simpl.
    + left. by rewrite lookup_insert_eq.
    + destruct ended as [why|]; simplify_eq/=. right. exists why.
      by rewrite lookup_insert_eq.
    + pose proof (no_handoff_closing s1 i _ Hinv1 Hcl1 Hc1 eq_refl) as Hn.
      unfold step, token_select in Hn. rewrite Hc1 in Hn. simpl in Hn.
      congruence.
Qed.

(** C3 (amended): shutdown wakes every token fetch that is blocked, with
    the closed error.  After shutdown nothing stays blocked: no caller is
    blocked, no caller can block, every unfinished fetch can end at once
    with the closed error, and no handoff is received any more.  A fetch
    issued after shutdown ends without waiting and without a token: with the
    closed error, or, when the caller's own context has already ended, with
    that context's error.  And the token operation returns nothing but a
    token issued by a successful login, the closed error, or the error of
    the caller's own context. *)
Theorem shutdown_unblocks_token_fetches s :
  reachable s →
  (∀ s' i c, step s Close = Some s' → callers s !! i = Some c →
     parked c = true → result s' i = Some ("", Some ErrClosed)) ∧
  (closing s = true →
     pc s ≠ Parked ∧
     (∀ i c, callers s !! i = Some c → parked c = false) ∧
     (∀ i c, callers s !! i = Some c → at_ c = Handoff ∨ at_ c = Await →
        step s (CallerSelect i CBlock) = None ∧
        ∃ s', step s (CallerSelect i CClosing) = Some s' ∧
              result s' i = Some ("", Some ErrClosed)) ∧
     (∀ i, step s (RoutineSelect (RRecv i)) = None) ∧
     (∀ i ended s1, step s (Fetch i ended) = Some s1 →
        (∃ s2, step s1 (CallerSelect i CClosing) = Some s2 ∧
               result s2 i = Some ("", Some ErrClosed)) ∧
        step s1 (CallerSelect i CBlock) = None ∧
        step s1 (CallerSelect i CComm) = None ∧
        (∀ cc s2, step s1 (CallerSelect i cc) = Some s2 →
           result s2 i = Some ("", Some ErrClosed) ∨
           ∃ why, ended = Some why ∧
                  result s2 i = Some ("", Some (ctx_Err why))))) ∧
  (∀ i tok err, result s i = Some (tok, err) →
     (err = None ∧ issued s tok) ∨
     (tok = "" ∧ err = Some ErrClosed ∧ closing s = true) ∨
     (tok = "" ∧ ∃ why c, err = Some (ctx_Err why) ∧
                          callers s !! i = Some c ∧ ctxErr c = err)).
Proof.
  intros Hreach. pose proof (reachable_invariants _ Hreach) as Hinv.
  split_and!.
  - eauto using close_wakes.
  - intros Hcl. pose proof Hinv as [[_ Hr Hc _ _] _ _ _].
    split_and!; eauto using no_recv_closing, fetch_after_shutdown.
    intros i c Hi Hat. split; eauto using never_blocks_closing, closing_case.
  - intros i tok err Hres. unfold result in Hres.
    destruct (callers s !! i) as [c|] eqn:Hc; simplify_eq/=.
    destruct (at_ c) as [| | | |tok' err'] eqn:Hat; simplify_eq.
    destruct Hinv as [_ _ _ [_ Htok Herr Hctx]].
    destruct err as [e|].
    + destruct (Herr _ _ _ _ Hc Hat) as (-> & [[-> ?]|He]); [by eauto|].
      destruct (Hctx _ _ _ Hc He) as [why ->]. right; right. eauto 10.
    + left. eauto.
Qed.

(** *** The renewal timer *)

Lemma renewal_delay_in_range now expires :
  in_range now expires → now + renewal_delay now expires = expires - 5 * Second.
Proof.
  unfold in_range, renewal_delay, Duration_sub, Duration_mul, Until, Sub,
    int64, minDuration, maxDuration, Second.
  intros [H1 H2].
  destruct (Z.ltb_spec (expires - now) (- 2 ^ 63)); [lia|].
  destruct (Z.ltb_spec (2 ^ 63 - 1) (expires - now)); [lia|].
  change ((5 * 1000000000 + 2 ^ 63) mod 2 ^ 64 - 2 ^ 63) with 5000000000.
  rewrite Z.mod_small by lia. lia.
Qed.

Lemma exited_forever ls :
  ∀ s s', pc s = Exited → run s ls = Some s' → pc s' = Exited.
Proof.
  induction ls as [|l ls IH]; intros s s' Hpc Hrun; simpl in *.
  - by simplify_eq.
  - destruct (step s l) as [s1|] eqn:E; [|done]. eapply IH; [|done].
    destruct s; destruct l; unfold_step; simpl in *; simplify_eq;
      repeat case_match; by simplify_eq.
Qed.

(** C4 (amended): the renewal timer is armed when a login has been adopted,
    at startup and after every renewal, to fire after
    [time.Until(expiresAt) - 5s]; whenever the expiry is near enough to the
    clock for that delay to be a Duration, this is the instant
    [expiresAt - 5s].  When the timer fires the routine logs in again: a
    failed attempt is followed by a sleep of the retry interval and another
    attempt, a successful one is adopted and the timer armed again, and a
    failed attempt after the shutdown has cancelled the context ends the
    routine, which then serves no request any more. *)
Theorem renewal_timer_schedule s :
  reachable s →
  (∀ ph r, pc s = Returning ph r →
     ∃ s', step s Return = Some s' ∧ pc s' = Select ∧ adopted r s' ∧
           timer s' = Some (now s + renewal_delay (now s)
                                      (LoginResponse.TokenExpires r)) ∧
           (in_range (now s) (LoginResponse.TokenExpires r) →
            timer s' = Some (LoginResponse.TokenExpires r - 5 * Second))) ∧
  (∀ w, timer s = Some w →
     ∃ t0, t0 ≤ now s ∧ w = t0 + renewal_delay t0 (tokenExpires s) ∧
           (in_range t0 (tokenExpires s) → w = tokenExpires s - 5 * Second)) ∧
  (∀ s', step s Fire = Some s' →
     ∃ w, timer s = Some w ∧ w ≤ now s ∧ timer s' = None ∧
          (pc s' = LoginCall Renew ∨ (tick s' = true ∧ pc s' = pc s))) ∧
  (tick s = true → pc s = Select →
     step s (RoutineSelect RExpired)
     = Some (set_pc (LoginCall Renew) (set_tick false s))) ∧
  (∀ answer, pc s = LoginCall Renew →
     ∃ s', step s (LoginAnswer answer) = Some s' ∧
           match Login_with (opts s) answer with
           | (r, None) => pc s' = Returning Renew r
           | (_, Some _) =>
               if ctxDone s then pc s' = Exited
               else pc s' = Sleeping Renew
                              (now s + TimeBetweenLoginAttemps (opts s))
           end) ∧
  (∀ until, pc s = Sleeping Renew until →
     (until ≤ now s → step s Wake = Some (set_pc (LoginCall Renew) s)) ∧
     (now s < until → step s Wake = None)) ∧
  (pc s = Exited →
     step s Send = None ∧
     (∀ c, step s (RoutineSelect c) = None) ∧
     (∀ i c, callers s !! i = Some c → at_ c = Handoff →
        step s (CallerSelect i CComm) = None) ∧
     (∀ ls s', run s ls = Some s' → pc s' = Exited)).
Proof.
  intros Hreach. pose proof (reachable_invariants _ Hreach) as Hinv.
  split_and!.
  - intros ph r Hpc. unfold step. rewrite Hpc. eexists. split; [done|].
    simpl. split_and!; try done.
    intros Hr. by rewrite renewal_delay_in_range.
  - intros w Hw. destruct Hinv as [_ _ [_ Ht _ _] _].
    destruct (Ht _ Hw) as (t0 & ? & ->). exists t0. split_and!; try done.
    apply renewal_delay_in_range.
  - intros s' Hs. unfold step in Hs.
    destruct (timer s) as [w|]; [|done].
    destruct (Z.leb_spec w (now s)); [|done]. simplify_eq.
    exists w. destruct (pc s) eqn:Hpc; simpl; rewrite ?Hpc; split_and!; auto.
  - intros Ht Hpc. unfold step, connectionRoutine_select. by rewrite Hpc, Ht.
  - intros answer Hpc. unfold step, loginUntilSuccess. rewrite Hpc.
    eexists. split; [done|].
    destruct (Login_with (opts s) answer) as [r [err|]]; [|done].
    by destruct (ctxDone s).
  - intros u Hpc. unfold step. rewrite Hpc.
    split; intros; destruct (Z.leb_spec u (now s)); (done || lia).
  - intros Hpc. unfold step, connectionRoutine_select, token_select. rewrite Hpc.
    split_and!; try done.
    + intros i c Hi Hat. by rewrite Hi, Hat.
    + eauto using exited_forever.
Qed.

(** *** Construction and the retry interval *)

Lemma all_fail_no_login ls :
  ∀ s s', Forall (fails (opts s)) ls → run s ls = Some s' →
    logins s = [] → logins s' = [].
Proof.
  induction ls as [|l ls IH]; intros s s' Hf Hrun Hl; simpl in *.
  - by simplify_eq.
  - destruct (step s l) as [s1|] eqn:E; [|done].
    apply Forall_cons in Hf as [Hl1 Hf].
    eapply (IH s1); eauto.
    + by rewrite (step_opts _ _ _ E).
    + destruct l; try (destruct (step_logins _ _ _ E) as [new Hn];
        revert E Hn; destruct s; unfold_step; simpl in *; intros;
        repeat case_match; simplify_eq; simpl in *; congruence).
      destruct (Hl1 _ eq_refl) as (r & err & Hfail).
      unfold step, loginUntilSuccess in E. rewrite Hfail in E.
      repeat case_match; simplify_eq; simpl; done.
Qed.

Lemma constructed_logged_in s :
  invariants s → constructed s = true → logins s ≠ [].
Proof.
  intros [_ _ [Hs _ _ _] _] Hc. unfold session_of, adopted, constructed in *.
  destruct (pc s) as [[]|[]|[]| | | | | |]; try done;
    destruct Hs as (? & ? & -> & _); done.
Qed.

(** C5: [NewClient] returns a client only after a login has succeeded, and
    fails only with the cancellation error, once the context is cancelled.
    While every login attempt fails, no client is returned; as long as the
    context is not cancelled the construction stays in its retry loop, each
    failed attempt leading to a sleep and another attempt; a failed attempt
    after the cancellation makes it return the cancellation error. *)
Theorem construction_fails_only_by_cancellation o t0 ls s :
  run (NewClient o t0) ls = Some s →
  (constructed s = true → logins s ≠ []) ∧
  (∀ e, pc s = Failed e →
     e = Sentinel context_Canceled ∧ ctxDone s = true ∧ logins s = []) ∧
  (Forall (fails (opts (NewClient o t0))) ls →
     constructed s = false ∧
     (ctxDone s = false → pc s = LoginCall Init ∨ ∃ u, pc s = Sleeping Init u)) ∧
  (∀ answer, pc s = LoginCall Init →
     ∃ s', step s (LoginAnswer answer) = Some s' ∧
           match Login_with (opts s) answer with
           | (r, None) => pc s' = Returning Init r
           | (_, Some _) =>
               if ctxDone s then pc s' = Failed (Sentinel context_Canceled)
               else pc s' = Sleeping Init
                              (now s + TimeBetweenLoginAttemps (opts s))
           end) ∧
  (∀ u, pc s = Sleeping Init u →
     (u ≤ now s → step s Wake = Some (set_pc (LoginCall Init) s)) ∧
     (now s < u → step s Wake = None)).
Proof.
  intros Hrun.
  assert (reachable s) as Hreach by (by exists o, t0, ls).
  pose proof (reachable_invariants _ Hreach) as Hinv.
  split_and!.
  - by apply constructed_logged_in.
  - intros e Hpc. pose proof Hinv as [[_ _ _ _ Hf] _ [Hs _ _ _] _].
    destruct (Hf _ Hpc) as [-> ?]. split_and!; try done.
    unfold session_of in Hs. by rewrite Hpc in Hs.
  - intros Hall.
    assert (logins s = []) as Hl by (eapply all_fail_no_login; eauto).
    assert (constructed s = false) as Hc.
    { destruct (constructed s) eqn:E; [|done].
      by destruct (constructed_logged_in s Hinv E). }
    split; [done|]. intros Hctx.
    pose proof Hinv as [[_ _ _ _ Hf] _ [Hs _ _ _] _].
    unfold constructed, session_of in *.
    destruct (pc s) as [[]|[]|[]| | | | | |]; try done; eauto.
    + destruct Hs as [Hs _]. congruence.
    + destruct (Hf _ eq_refl) as [_ ?]. congruence.
  - intros answer Hpc. unfold step, loginUntilSuccess. rewrite Hpc.
    eexists. split; [done|].
    destruct (Login_with (opts s) answer) as [r [err|]]; [|done].
    by destruct (ctxDone s).
  - intros u Hpc. unfold step. rewrite Hpc.
    split; intros; destruct (Z.leb_spec u (now s)); (done || lia).
Qed.

Lemma NewClient_interval o t0 :
  TimeBetweenLoginAttemps (opts (NewClient o t0))
  = Z.max Second (TimeBetweenLoginAttemps o).
Proof.
  simpl. destruct (Z.ltb_spec (TimeBetweenLoginAttemps o) Second); lia.
Qed.

Lemma NewClient_floor o t0 :
  TimeBetweenLoginAttemps o < Second →
  NewClient o t0 = NewClient (with_interval Second o) t0.
Proof.
  intros H. unfold NewClient, with_interval. simpl.
  destruct (Z.ltb_spec (TimeBetweenLoginAttemps o) Second); [done|lia].
Qed.

(** C6: the interval between login attempts is one constant of the client,
    the requested interval floored at one second: a client constructed with
    a shorter interval is the client constructed with one second, and has
    the same runs.  Every failed attempt, however many came before, is
    followed by a sleep of exactly that interval and then by another
    attempt, which is not made before the interval has passed. *)
Theorem retry_interval_fixed_and_floored o t0 ls s :
  run (NewClient o t0) ls = Some s →
  (TimeBetweenLoginAttemps o < Second →
     NewClient o t0 = NewClient (with_interval Second o) t0 ∧
     run (NewClient (with_interval Second o) t0) ls = Some s) ∧
  TimeBetweenLoginAttemps (opts s) = Z.max Second (TimeBetweenLoginAttemps o) ∧
  (∀ ph answer r err,
     pc s = LoginCall ph → ctxDone s = false →
     Login_with (opts s) answer = (r, Some err) →
     step s (LoginAnswer answer)
     = Some (set_pc (Sleeping ph (now s + Z.max Second (TimeBetweenLoginAttemps o)))
               s)) ∧
  (∀ ph u, pc s = Sleeping ph u →
     (u ≤ now s → step s Wake = Some (set_pc (LoginCall ph) s)) ∧
     (now s < u → step s Wake = None)).
Proof.
  intros Hrun.
  assert (TimeBetweenLoginAttemps (opts s)
          = Z.max Second (TimeBetweenLoginAttemps o)) as Hint.
  { rewrite (run_opts _ _ _ Hrun). apply NewClient_interval. }
  split_and!.
  - intros Hlt. split; [by apply NewClient_floor|].
    by rewrite <- NewClient_floor.
  - done.
  - intros ph answer r err Hpc Hctx Hfail. unfold step, loginUntilSuccess.
    by rewrite Hpc, Hfail, Hctx, Hint.
  - intros ph u Hpc. unfold step. rewrite Hpc.
    split; intros; destruct (Z.leb_spec u (now s)); (done || lia).
Qed.

(** *** The session *)

(** C7 (amended): the token and the expiry are two variables of the routine
    and are replaced together, when a login is adopted; the user id is a
    field of its own, stored under its own lock by [loginUntilSuccess] the
    moment a login succeeds, before that login is adopted.  So the token and
    expiry always come from one login, and the user id from the same login
    or, between the success of a login and its adoption, from the next. *)
Theorem session_replaced_together s :
  reachable s →
  session_of s ∧
  (∀ l s', step s l = Some s' →
     (token s' = token s ∧ tokenExpires s' = tokenExpires s) ∨
     (l = Return ∧ ∃ ph r, pc s = Returning ph r ∧ adopted r s') ∨
     pc s' = Exited) ∧
  (∀ l s', step s l = Some s' →
     mxUserID s' = mxUserID s ∨
     ∃ answer r ph,
       l = LoginAnswer answer ∧ Login_with (opts s) answer = (r, None) ∧
       mxUserID s' = LoginResponse.ID r ∧ pc s' = Returning ph r ∧
       token s' = token s ∧ tokenExpires s' = tokenExpires s).
Proof.
  intros Hreach. pose proof (reachable_invariants _ Hreach) as Hinv.
  split_and!.
  - apply Hinv.
  - intros l s' Hs. unfold adopted.
    destruct s; destruct l; unfold_step; simpl in *; simplify_eq;
      repeat case_match; simplify_eq; simpl; eauto 10.
  - intros l s' Hs.
    destruct s; destruct l; unfold_step; simpl in *; simplify_eq;
      repeat case_match; simplify_eq; simpl; eauto 12.
Qed.

(** *** Cancellation by the caller

    X12: a token fetch that is blocked is woken when its own context ends,
    with that context's error.  A fetch whose context has ended is never
    blocked and cannot block: the [ctx.Done()] case of its select is ready
    and returns the context's error.  The end of one caller's context
    leaves the routine, its token, the closing state and every other caller
    as they are. *)
Theorem cancellation_unblocks_the_fetch s :
  reachable s →
  (∀ i c why, callers s !! i = Some c → parked c = true →
     ∃ s', step s (Cancel i why) = Some s' ∧
           result s' i = Some ("", Some (ctx_Err why))) ∧
  (∀ i c e, callers s !! i = Some c → ctxErr c = Some e →
     parked c = false ∧ step s (CallerSelect i CBlock) = None ∧
     (at_ c = Handoff ∨ at_ c = Await →
        ∃ s', step s (CallerSelect i CDone) = Some s' ∧
              result s' i = Some ("", Some e))) ∧
  (∀ i why s', step s (Cancel i why) = Some s' →
     pc s' = pc s ∧ token s' = token s ∧ closing s' = closing s ∧
     ∀ j, j ≠ i → callers s' !! j = callers s !! j).
Proof.
  intros Hs. pose proof (reachable_invariants s Hs) as [_ [_ _ _ _ Hp] _ _].
  split_and!.
  - intros i c why Hi Hc. pose proof (Hp i c Hi Hc) as He.
    simpl. rewrite Hi, He. eexists. split; [done|].
    unfold result. simpl. rewrite lookup_insert_eq. simpl.
    unfold wake, parked in *. simpl. by destruct (at_ c).
  - intros i c e Hi He.
    assert (parked c = false) as Hc.
    { destruct (parked c) eqn:Hc; [|done]. rewrite (Hp i c Hi Hc) in He. done. }
    split_and!; [done|..].
    + simpl. unfold token_select. rewrite Hi, He.
      destruct (at_ c); try done;
        by rewrite bool_decide_eq_false_2, ?andb_false_r by done.
    + intros Hat. simpl. unfold token_select. rewrite Hi, He.
      destruct Hat as [-> | ->]; (eexists; split; [done|]);
        unfold result; simpl; by rewrite lookup_insert_eq.
  - intros i why s' Hstep. simpl in Hstep.
    destruct (callers s !! i) as [cl|]; [|done].
    destruct (ctxErr cl); [done|]. simplify_eq. simpl. split_and!; try done.
    intros j Hj. by rewrite lookup_insert_ne.
Qed.

(** *** The life of the routine

    X13: the renewal timer has no floor.  When a login is adopted whose
    token expires within five seconds of the clock, or has expired, the
    timer is armed for an instant that has passed: it fires with no time
    passing, the routine cannot block in its select, and the expired case
    starts the next login.  Successful logins are not spaced by the retry
    interval. *)
Theorem short_lived_token_is_renewed_at_once s ph r :
  pc s = Returning ph r →
  in_range (now s) (LoginResponse.TokenExpires r) →
  LoginResponse.TokenExpires r ≤ now s + 5 * Second →
  ∃ s1 s2 s3,
    step s Return = Some s1 ∧ token s1 = LoginResponse.Token r ∧
    step s1 Fire = Some s2 ∧
    step s2 (RoutineSelect RBlock) = None ∧
    step s2 (RoutineSelect RExpired) = Some s3 ∧
    pc s3 = LoginCall Renew ∧ now s3 = now s.
Proof.
  intros Hpc Hrange Hsoon.
  pose proof (renewal_delay_in_range _ _ Hrange) as Hw.
  simpl. rewrite Hpc. eexists _, _, _. split; [done|]. simpl.
  rewrite Hw. split; [done|].
  rewrite (proj2 (Z.leb_le _ _)) by lia.
  split; [done|]. simpl. by rewrite andb_false_r.
Qed.

Lemma step_user_id s l s' :
  step s l = Some s' →
  (mxUserID s' = mxUserID s ∧ logins s' = logins s) ∨
  ∃ r, mxUserID s' = LoginResponse.ID r ∧ logins s' = r :: logins s.
Proof.
  destruct l; unfold_step; simpl; intros; repeat case_match; simplify_eq;
    simpl; eauto.
Qed.

(** X14: [GetCurrentUserID] returns the id of the latest successful login,
    and the empty string as long as no login has succeeded; also after the
    routine has returned. *)
Theorem current_user_is_latest_login s :
  reachable s →
  GetCurrentUserID s = match logins s with
                       | [] => ""
                       | r :: _ => LoginResponse.ID r
                       end.
Proof.
  revert s. apply reachable_invariant; [done|].
  intros s l s' IH Hstep. unfold GetCurrentUserID in *.
  destruct (step_user_id _ _ _ Hstep) as [[-> ->]|(r & -> & ->)]; done.
Qed.

Lemma step_now s l s' : step s l = Some s' → now s ≤ now s'.
Proof.
  destruct l; unfold_step; simpl; intros; repeat case_match; simplify_eq;
    simpl; lia.
Qed.

Lemma step_sleeping s l s' ph u :
  pc s = Sleeping ph u → step s l = Some s' → now s < u →
  pc s' = Sleeping ph u ∧ logins s' = logins s.
Proof.
  intros Hpc Hstep Hnow. destruct l; unfold_step; simpl in *;
    rewrite ?Hpc in Hstep; repeat case_match; simplify_eq; simpl; try done;
    lia.
Qed.

(** X15: the sleep between two login attempts is not interruptible.  From
    a state in which [loginUntilSuccess] sleeps until [u], whatever happens
    before the clock reaches [u], shutdown and the cancellation of the
    context included, it still sleeps, and no login has been added. *)
Theorem retry_sleep_is_not_interrupted ls :
  ∀ s s' ph u, pc s = Sleeping ph u → run s ls = Some s' → now s' < u →
    pc s' = Sleeping ph u ∧ logins s' = logins s.
Proof.
  induction ls as [|l ls IH]; intros s s' ph u Hpc Hrun Hnow; simpl in Hrun.
  - by simplify_eq.
  - destruct (step s l) as [s1|] eqn:Hstep; [|done].
    assert (now s1 ≤ now s') as Hmono.
    { clear -Hrun. revert s1 Hrun. induction ls as [|l' ls IH']; intros s1 Hrun;
        simpl in Hrun; [simplify_eq; lia|].
      destruct (step s1 l') as [s2|] eqn:Hs; [|done].
      pose proof (step_now _ _ _ Hs). pose proof (IH' _ Hrun). lia. }
    pose proof (step_now _ _ _ Hstep).
    destruct (step_sleeping _ _ _ _ _ Hpc Hstep) as [Hpc1 Hl1]; [lia|].
    destruct (IH _ _ _ _ Hpc1 Hrun Hnow) as [? ?]. split; congruence.
Qed.

Lemma Login_with_transport_error o e :
  ∃ r err, Login_with o (inr e) = (r, Some err).
Proof.
  unfold Login_with, Login, loginOrRegister, http_NewRequestWithContext.
  destruct (env_url_Parse _); eauto.
Qed.

Lemma step_closing s l s' :
  step s l = Some s' → closing s = true → closing s' = true.
Proof.
  destruct l; unfold_step; simpl; intros; repeat case_match; simplify_eq;
    simpl; done.
Qed.

(** X16: shutdown can always complete.  From every state of a closed
    client a run of at most four steps, which needs no successful login and
    no step of a caller, ends the routine, or the construction when no
    client has been returned yet. *)
Theorem shutdown_can_always_complete s :
  reachable s → closing s = true →
  ∃ ls s', run s ls = Some s' ∧ (length ls ≤ 4)%nat ∧
           Forall (λ l, caller_label l = false) ls ∧
           (pc s' = Exited ∨ ∃ e, pc s' = Failed e) ∧
           logins s' = logins s.
Proof.
  intros Hs Hcl. pose proof (reachable_invariants s Hs) as Hinv.
  pose proof Hinv as [[_ Hpark _ _ _] [Hsend _ _ _ _] _ _].
  set (down := inr (Sentinel context_Canceled) : Response + error).
  destruct (Login_with_transport_error (opts s) (Sentinel context_Canceled))
    as (r0 & err0 & Hlogin).
  assert (∀ ph s0, opts s0 = opts s → pc s0 = LoginCall ph → closing s0 = true →
            ∃ s', run s0 [CtxCancel; LoginAnswer down] = Some s' ∧
                  (pc s' = Exited ∨ ∃ e, pc s' = Failed e) ∧
                  logins s' = logins s0) as Hcall.
  { intros ph s0 Ho Hpc Hc. simpl. rewrite Hc. simpl. rewrite Hpc.
    unfold loginUntilSuccess. simpl. rewrite Ho. unfold down. rewrite Hlogin.
    eexists. split; [done|]. destruct ph; simpl; eauto. }
  destruct (pc s) as [ph|ph u|ph r| | | |i|i|] eqn:Hpc.
  - destruct (Hcall ph s eq_refl Hpc Hcl) as (s' & Hrun & ? & ?).
    exists [CtxCancel; LoginAnswer down], s'.
    split_and!; try done; try (simpl; lia); by repeat constructor.
  - set (s1 := set_pc (LoginCall ph) (set_now (now s + Z.max 0 (u - now s)) s)).
    destruct (Hcall ph s1 eq_refl eq_refl Hcl) as (s' & Hrun & ? & ?).
    exists [Advance (Z.max 0 (u - now s)); Wake; CtxCancel; LoginAnswer down], s'.
    split_and!; try done; try (simpl; lia); try (by repeat constructor).
    change (run s [Advance (Z.max 0 (u - now s)); Wake; CtxCancel; LoginAnswer down])
      with (step s (Advance (Z.max 0 (u - now s))) ≫= λ s2,
            step s2 Wake ≫= λ s3, run s3 [CtxCancel; LoginAnswer down]).
    simpl. rewrite (proj2 (Z.leb_le _ _)) by lia. simpl. rewrite Hpc.
    rewrite (proj2 (Z.leb_le _ _)) by lia. simpl. exact Hrun.
  - exists [Return; RoutineSelect RClosing]. simpl. rewrite Hpc. simpl.
    rewrite Hcl. eexists.
    split_and!; try done; try lia; try (by repeat constructor); by left.
  - exists [], s. simpl.
    split_and!; try done; try lia; try (by repeat constructor).
    right. by eauto.
  - exists [RoutineSelect RClosing]. simpl. rewrite Hpc. simpl. rewrite Hcl.
    eexists. split_and!; try done; try lia; try (by repeat constructor); by left.
  - by destruct (Hpark Hcl).
  - destruct (send_from_reply s i Hinv Hpc) as (s1 & Hstep & Hpc1 & _ & Hl & _).
    pose proof (step_closing _ _ _ Hstep Hcl) as Hcl1.
    exists [Send; RoutineSelect RClosing].
    unfold run. rewrite Hstep. simpl. rewrite Hpc1. simpl. rewrite Hcl1.
    eexists. split_and!; try done; try lia; try (by repeat constructor); by left.
  - by destruct (Hsend i).
  - exists [], s. simpl.
    split_and!; try done; try lia; try (by repeat constructor); by left.
Qed.

(** X17: the routine ends only by shutdown.  It has returned, or
    [NewClient] has failed, only in a closed client; as long as the client
    is open no step but [Close] ends the routine or fails the construction,
    whatever the login server answers. *)
Theorem routine_ends_only_by_shutdown s :
  reachable s →
  (pc s = Exited → closing s = true) ∧
  (∀ e, pc s = Failed e → closing s = true) ∧
  (∀ l s', closing s = false → step s l = Some s' → l ≠ Close →
     pc s' ≠ Exited ∧ ∀ e, pc s' ≠ Failed e).
Proof.
  intros Hs. pose proof (reachable_invariants s Hs) as [[Hctx _ _ Hex Hf] _ _ _].
  split_and!; [done| |].
  - intros e He. destruct (Hf e He) as [_ ?]. by apply Hctx.
  - intros l s' Hcl Hstep Hl.
    assert (closing s' = false) as Hcl'.
    { revert Hstep. clear -Hcl Hl. destruct l; unfold_step; simpl; intros;
        repeat case_match; simplify_eq; simpl; done. }
    pose proof (reachable_invariants s' (reachable_step _ _ _ Hs Hstep))
      as [[Hctx' _ _ Hex' Hf'] _ _ _].
    split.
    + intros He. specialize (Hex' He). congruence.
    + intros e He. destruct (Hf' e He) as [_ Hd]. specialize (Hctx' Hd).
      congruence.
Qed.

(** X18: an address that [http.NewRequestWithContext] rejects is not
    reported by [NewClient].  Every login attempt fails before anything is
    sent, whatever the server would answer, and [NewClient] stays in its
    retry loop: no run constructs the client. *)
Theorem malformed_address_never_constructs o t0 e ls s :
  env_url_Parse (RemoteAddr o +:+ "/users/login") = Some e →
  run (NewClient o t0) ls = Some s →
  (∀ answer,
     Login_with o answer
     = (LoginResponse.zero,
        Some (errorString ("failed to create new request: " +:+ Error e)))) ∧
  constructed s = false ∧ logins s = [] ∧ GetCurrentUserID s = "".
Proof.
  intros Hurl Hrun.
  assert (∀ answer,
            Login_with o answer
            = (LoginResponse.zero,
               Some (errorString ("failed to create new request: " +:+ Error e))))
    as Hlogin.
  { intros answer. unfold Login_with, Login, loginOrRegister,
      http_NewRequestWithContext. by rewrite Hurl. }
  assert (logins s = []) as Hl.
  { eapply (all_fail_no_login ls (NewClient o t0)); [|done..].
    apply Forall_forall. intros l _ answer _. simpl.
    unfold Login_with in *. simpl. rewrite (Hlogin answer). by eauto. }
  assert (reachable s) as Hs by (by exists o, t0, ls).
  pose proof (reachable_invariants s Hs) as Hinv.
  split_and!; try done.
  - destruct (constructed s) eqn:Hc; [|done].
    by destruct (constructed_logged_in s Hinv Hc).
  - clear -Hs Hl. revert s Hs Hl. unfold GetCurrentUserID.
    apply (reachable_invariant (λ s, logins s = [] → mxUserID s = ""));
      [done|].
    intros s l s' IH Hstep Hl.
    destruct (step_user_id _ _ _ Hstep) as [[-> Hsame]|(r & _ & Hnew)];
      [apply IH|]; congruence.
Qed.


(** X19: while a renewal is in progress no token is served.  The routine
    is inside [loginUntilSuccess], not in its select: it receives no
    handoff and sends nothing, so a fetch that has not been received stays
    unreceived, blocked or about to block, until the renewal ends, unless it
    returns with an error. *)
Theorem no_token_is_served_during_renewal s :
  renewal_in_progress s = true →
  step s Send = None ∧ (∀ c, step s (RoutineSelect c) = None) ∧
  ∀ l s' i, step s l = Some s' → not_accepted s i →
    not_accepted s' i ∨ ∃ e, result s' i = Some ("", Some e).
Proof.
  unfold renewal_in_progress. intros Hpc. split_and!.
  - simpl. by repeat case_match.
  - intros c. simpl. by repeat case_match.
  - intros l s' i Hstep Hi. unfold not_accepted, result in *.
    destruct l; unfold_step; simpl in *;
      repeat case_match; simplify_eq; simpl in *;
      repeat match goal with
      | H : (_ <$> _) !! _ = Some _ |- _ =>
          apply lookup_fmap_Some in H as (? & <- & ?)
      | H : (_ <$> _) !! _ = None |- _ => rewrite lookup_fmap in H
      | H : <[_:=_]> _ !! _ = Some _ |- _ =>
          apply lookup_insert_Some in H as [[-> <-]|[? ?]]
      | H : <[_:=_]> _ !! _ = None |- _ =>
          apply lookup_insert_None in H as [? ?]
      end; simplify_eq; simpl in *;
      unfold set_at, set_ctxErr in *; simpl in *;
      repeat case_match; simplify_eq; simpl in *;
      try done; try (by left; eauto); try (by right; eauto);
      try (destruct_or?; simplify_eq; simpl in *; try done; by eauto);
      try (destruct_or?; congruence).
Qed.

End ManagerFacts.

(** ** The request plumbing *)

Section PlumbingFacts.

Variable url_Parse : string → option error.
Variable filepath_Join : list string → string.
Variable RemoteAddr : string.

Lemma no_authorization_fresh method url body req err :
  http_NewRequestWithContext url_Parse method url body = (Some req, err) →
  Header req !! "Authorization" = None.
Proof.
  unfold http_NewRequestWithContext. destruct (url_Parse url); intros; by simplify_eq.
Qed.

Lemma without_authorization_set tok req :
  Header req !! "Authorization" = None →
  without_authorization (Header_Set "Authorization" tok req) = req.
Proof.
  intros H. destruct req as [m u h b]. unfold without_authorization, Header_Set.
  simpl in *. f_equal. rewrite delete_insert_eq. by apply delete_id.
Qed.

Lemma builders_drop_token_error (tok tok' : string) (err : error)
    (path : string) (marshalled : string * option error) :
  drops_token_error tok tok' err
    (λ token, newAuthenticatedGETRequest url_Parse RemoteAddr token path) ∧
  drops_token_error tok tok' err
    (λ token, newAuthenticatedPOSTRequest url_Parse RemoteAddr token path
                marshalled) ∧
  drops_token_error tok tok' err
    (λ token, newAuthenticatedPUTRequest url_Parse RemoteAddr token path
                marshalled) ∧
  drops_token_error tok tok' err
    (λ token, newAuthenticatedDELETERequest url_Parse RemoteAddr token path).
Proof.
  unfold drops_token_error. simpl. split_and!.
  all: unfold newAuthenticatedGETRequest, newGETRequest,
         newAuthenticatedPOSTRequest, newAuthenticatedPUTRequest,
         newAuthenticatedDELETERequest, authenticateRequest, authorization.
  all: try destruct marshalled as [reqData [e|]]; simpl; try done.
  all: match goal with
       | |- context [http_NewRequestWithContext ?p ?m ?u ?b] =>
           destruct (http_NewRequestWithContext p m u b) as [[req|] [e'|]] eqn:E
       end; simpl; try done.
  all: pose proof (no_authorization_fresh _ _ _ _ _ E) as Hfresh.
  all: try (f_equal; f_equal; symmetry; apply without_authorization_set;
            simpl; by rewrite ?lookup_insert_ne).
  all: simpl; by rewrite ?lookup_insert_ne.
Qed.

(** C8: when the token cannot be obtained, [authenticateRequest] returns
    the error and leaves the request as it is, and each of the four builders
    drops that error: it returns what it returns with a working token, error
    included, except that the request carries no Authorization header.  So a
    method such as [GetBoard] goes on as with a working token and a
    transport that is sent the request without the header.  In full: when
    the body can be marshalled and the URL is accepted, the builder returns,
    without error, the request with its method, the URL [RemoteAddr +
    endpoint], the body and the Accept and Content-Type headers it sets, and
    no Authorization header; with a working token the same request carries
    "Bearer " and the token. *)
Theorem token_failure_is_dropped {Board : Type} `{!Unmarshal Board}
    (tok tok' : string) (err : error) (path : string)
    (marshalled : string * option error)
    (httpc_Do : Request → Response + error) (boardID : string) :
  (∀ req, authenticateRequest (tok, Some err) req = (req, Some err)) ∧
  drops_token_error tok tok' err
    (λ token, newAuthenticatedGETRequest url_Parse RemoteAddr token path) ∧
  drops_token_error tok tok' err
    (λ token, newAuthenticatedPOSTRequest url_Parse RemoteAddr token path
                marshalled) ∧
  drops_token_error tok tok' err
    (λ token, newAuthenticatedPUTRequest url_Parse RemoteAddr token path
                marshalled) ∧
  drops_token_error tok tok' err
    (λ token, newAuthenticatedDELETERequest url_Parse RemoteAddr token path) ∧
  GetBoard url_Parse filepath_Join RemoteAddr httpc_Do (tok, Some err) boardID
  = (GetBoard url_Parse filepath_Join RemoteAddr
       (λ req, httpc_Do (without_authorization req)) (tok', None) boardID
     : Board * option error) ∧
  let url := RemoteAddr +:+ path in
  let mime := "application/json" in
  let built (method body : string) (headers : gmap string string)
      (marshal : option error) (what : string)
      : option Request * option error :=
    match marshal, url_Parse url with
    | Some e, _ => (None, Some (errorString ("failed to marshal json: " +:+ Error e)))
    | None, Some e => (None, Some (errorString (what +:+ Error e)))
    | None, None =>
        (Some {| Method := method; URL := url; Header := headers;
                 ReqBody := body |}, None)
    end in
  newAuthenticatedGETRequest url_Parse RemoteAddr (tok, Some err) path
  = built "GET" "" {[ "Accept" := mime ]} None "new http GET request: " ∧
  newAuthenticatedPOSTRequest url_Parse RemoteAddr (tok, Some err) path marshalled
  = built "POST" marshalled.1 {[ "Accept" := mime; "Content-Type" := mime ]}
      marshalled.2 "new http POST request: " ∧
  newAuthenticatedPUTRequest url_Parse RemoteAddr (tok, Some err) path marshalled
  = built "PUT" marshalled.1 {[ "Accept" := mime; "Content-Type" := mime ]}
      marshalled.2 "new http POST request: " ∧
  newAuthenticatedDELETERequest url_Parse RemoteAddr (tok, Some err) path
  = built "DELETE" "" ∅ None "new http DELETE request: " ∧
  newAuthenticatedGETRequest url_Parse RemoteAddr (tok', None) path
  = built "GET" "" {[ "Authorization" := "Bearer " +:+ tok'; "Accept" := mime ]}
      None "new http GET request: " ∧
  newAuthenticatedPOSTRequest url_Parse RemoteAddr (tok', None) path marshalled
  = built "POST" marshalled.1
      {[ "Authorization" := "Bearer " +:+ tok'; "Accept" := mime;
         "Content-Type" := mime ]}
      marshalled.2 "new http POST request: " ∧
  newAuthenticatedPUTRequest url_Parse RemoteAddr (tok', None) path marshalled
  = built "PUT" marshalled.1
      {[ "Authorization" := "Bearer " +:+ tok'; "Accept" := mime;
         "Content-Type" := mime ]}
      marshalled.2 "new http POST request: " ∧
  newAuthenticatedDELETERequest url_Parse RemoteAddr (tok', None) path
  = built "DELETE" "" {[ "Authorization" := "Bearer " +:+ tok' ]} None
      "new http DELETE request: ".
Proof.
  destruct (builders_drop_token_error tok tok' err path marshalled)
    as (Hget & Hpost & Hput & Hdel).
  split_and!; try done.
  - unfold GetBoard.
    destruct (builders_drop_token_error tok tok' err
                (endpoint filepath_Join ["boards"; boardID]) marshalled)
      as ([-> _] & _).
    destruct (newAuthenticatedGETRequest _ _ (tok', None) _) as [[req|] [e|]];
      simpl; done.
  - intros url mime built. unfold built.
    unfold newAuthenticatedGETRequest, newGETRequest,
      newAuthenticatedPOSTRequest, newAuthenticatedPUTRequest,
      newAuthenticatedDELETERequest, http_NewRequestWithContext,
      authenticateRequest, Header_Set, Errorf_v.
    fold url. destruct marshalled as [data [me|]]; simpl;
      destruct (url_Parse url); simpl; by split_and!.
Qed.

Lemma fresh_error_is e target : fresh_error (Some e) → errors_Is e target = false.
Proof. by intros [text ->]. Qed.

Section Getter.
Context {T : Type} `{!Unmarshal T}.
Variable httpc_Do : Request → Response + error.

Lemma parseResponse_fresh resp (dst : T) :
  fresh_error (parseResponse resp dst).2.
Proof.
  unfold parseResponse. destruct (Body resp) as [e|raw [j|e]]; simpl;
    try (by eexists).
  - destruct (unmarshal j dst) as [d [e|]]; simpl; [by eexists|done].
Qed.

Lemma doSimpleRequest_fresh req (resp : option T) :
  fresh_error (doSimpleRequest httpc_Do req resp).2.
Proof.
  unfold doSimpleRequest. destruct (httpc_Do req) as [r|e]; simpl; [|by eexists].
  case_bool_decide; simpl; [by eexists|].
  destruct resp as [dst|]; simpl; [|done].
  destruct (parseResponse r dst) as [d [e|]]; simpl; [by eexists|done].
Qed.

End Getter.

Lemma newAuthenticatedGETRequest_fresh token endpoint :
  fresh_error (newAuthenticatedGETRequest url_Parse RemoteAddr token endpoint).2.
Proof.
  unfold newAuthenticatedGETRequest, newGETRequest.
  destruct (http_NewRequestWithContext _ _ _ _) as [req [e|]]; simpl;
    [by eexists|done].
Qed.

End PlumbingFacts.

(** C10: the getters of one resource never return [ErrNotFound].  The error
    of [doSimpleRequest], and the error of the request builder, is always a
    fresh error of [fmt.Errorf] that carries the text of its cause and not
    the cause, so [errors.Is(err, io.EOF)] is false and the error is
    returned as it is: also when the transport fails with an end-of-file
    error. *)
Theorem getters_never_return_ErrNotFound
    {Board Swimlane : Type} `{!Unmarshal Board} `{!Unmarshal Swimlane}
    (url_Parse : string → option error) (filepath_Join : list string → string)
    (RemoteAddr : string) (httpc_Do : Request → Response + error)
    (token : string * option error) (boardID swimlaneID : string) :
  let eof url := url_Error "Get" url (Sentinel io_EOF) in
  let board : Board * option error :=
    GetBoard url_Parse filepath_Join RemoteAddr httpc_Do token boardID in
  let swimlane : Swimlane * option error :=
    GetSwimlane url_Parse filepath_Join RemoteAddr httpc_Do token boardID
      swimlaneID in
  let board_eof : Board * option error :=
    GetBoard (λ _, None) filepath_Join RemoteAddr (λ req, inr (eof (URL req)))
      token boardID in
  fresh_error board.2 ∧ fresh_error swimlane.2 ∧
  (∀ url, errors_Is (eof url) io_EOF = true) ∧
  board_eof
  = (zero, Some (Errorf_v "failed to send POST request: "
                   (eof (RemoteAddr +:+ "/api/"
                         +:+ filepath_Join ["boards"; boardID])))).
Proof.
  simpl. split_and!.
  - unfold GetBoard.
    pose proof (newAuthenticatedGETRequest_fresh url_Parse RemoteAddr token
                  (endpoint filepath_Join ["boards"; boardID])) as Hb.
    destruct (newAuthenticatedGETRequest _ _ _ _) as [[req|] [e|]]; simpl in *;
      try done.
    pose proof (doSimpleRequest_fresh httpc_Do req (Some (zero : Board))) as Hd.
    destruct (doSimpleRequest _ _ _) as [r [e|]]; simpl in *; [|done].
    by rewrite (fresh_error_is e io_EOF Hd).
  - unfold GetSwimlane.
    pose proof (newAuthenticatedGETRequest_fresh url_Parse RemoteAddr token
                  (endpoint filepath_Join
                     ["boards"; boardID; "swimlanes"; swimlaneID])) as Hb.
    destruct (newAuthenticatedGETRequest _ _ _ _) as [[req|] [e|]]; simpl in *;
      try done.
    pose proof (doSimpleRequest_fresh httpc_Do req (Some (zero : Swimlane))) as Hd.
    destruct (doSimpleRequest _ _ _) as [r [e|]]; simpl in *; [|done].
    by rewrite (fresh_error_is e io_EOF Hd).
  - done.
  - unfold GetBoard, newAuthenticatedGETRequest, newGETRequest,
      http_NewRequestWithContext, doSimpleRequest, endpoint, authenticateRequest.
    simpl. by destruct token as [tok [e|]].
Qed.

(** ** The login exchange *)

Section LoginFacts.

Variable url_Parse : string → option error.
Variable url_Values_Encode : list (string * string) → string.
Variable RemoteAddr : string.

Lemma load_loaded r l : (LoginResponse.load r l).1 = loaded l.
Proof.
  unfold LoginResponse.load, loaded.
  by destruct (Parse_RFC3339 (loginResponse.TokenExpires l)) as [t [e|]].
Qed.

Lemma loginOrRegister_request f path params :
  url_Parse (RemoteAddr +:+ path) = None →
  loginOrRegister url_Parse url_Values_Encode RemoteAddr f path params
  = loginOrRegister url_Parse url_Values_Encode RemoteAddr
      (λ _, f (form_request (RemoteAddr +:+ path) (url_Values_Encode params)))
      path params.
Proof.
  intros Hurl. unfold loginOrRegister, http_NewRequestWithContext.
  by rewrite Hurl.
Qed.

(** X1: [loginOrRegister], and so [Login] and [Register], reports success
    exactly when the URL is accepted, the transport answers the form request
    with status 200, the body can be read and is a JSON document, and the
    document decodes into a [loginResponse] without a type error.  The
    result is then the decoded id and token with the expiry [time.Parse]
    returns, the zero time when the expiry does not parse: nothing else is
    asked of the answer. *)
Theorem loginOrRegister_succeeds_iff f path params r :
  loginOrRegister url_Parse url_Values_Encode RemoteAddr f path params
  = (r, None) ↔
  ∃ resp raw j l,
    url_Parse (RemoteAddr +:+ path) = None ∧
    f (form_request (RemoteAddr +:+ path) (url_Values_Encode params))
    = inl resp ∧
    StatusCode resp = StatusOK ∧ Body resp = Bytes raw (inl j) ∧
    unmarshal j zero = (l, None) ∧ r = loaded l.
Proof.
  unfold loginOrRegister, http_NewRequestWithContext, form_request.
  destruct (url_Parse (RemoteAddr +:+ path)) as [e|] eqn:Hurl.
  { split; [done|]. by intros (? & ? & ? & ? & ? & _). }
  match goal with |- context [f ?q] => destruct (f q) as [resp|e] eqn:Hdo end.
  2: { split; [done|]. by intros (? & ? & ? & ? & _ & ? & _). }
  case_bool_decide as H400.
  { split.
    - unfold parseResponse. destruct (Body resp) as [?|? [j|?]]; try done;
        destruct (unmarshal _ _) as [? [?|]]; done.
    - intros (? & ? & ? & ? & _ & [= <-] & H200 & _).
      rewrite H200 in H400. done. }
  case_bool_decide as H200.
  { split; [done|]. intros (? & ? & ? & ? & _ & [= <-] & ? & _). done. }
  unfold parseResponse. destruct (Body resp) as [e|raw [j|e]] eqn:Hbody.
  - split; [done|].
    intros (? & ? & ? & ? & _ & [= <-] & _ & ? & _). congruence.
  - destruct (unmarshal j zero) as [l [e|]] eqn:Hj.
    + split; [done|].
      intros (? & ? & ? & ? & _ & [= <-] & _ & Hb & ? & _).
      rewrite Hbody in Hb. simplify_eq. congruence.
    + pose proof (load_loaded LoginResponse.zero l) as Hl.
      destruct (LoginResponse.load LoginResponse.zero l) as [r' e'].
      simpl in Hl. subst r'. split.
      * intros [= <-]. by exists resp, raw, j, l.
      * intros (? & ? & ? & ? & _ & [= <-] & _ & Hb & ? & ->).
        rewrite Hbody in Hb. simplify_eq. congruence.
  - split; [done|].
    intros (? & ? & ? & ? & _ & [= <-] & _ & ? & _). congruence.
Qed.

(** X2: when [loginOrRegister] fails, its result is the zero
    [LoginResponse], never a partly filled one, and its error is a fresh
    error of [fmt.Errorf] that wraps nothing: [errors.Is] matches it with no
    package-level error, the cancellation of the context included. *)
Theorem loginOrRegister_failure f path params r e :
  loginOrRegister url_Parse url_Values_Encode RemoteAddr f path params
  = (r, Some e) →
  r = LoginResponse.zero ∧ (∃ text, e = errorString text) ∧
  ∀ target, errors_Is e target = false.
Proof.
  intros H.
  assert (r = LoginResponse.zero ∧ ∃ text, e = errorString text) as [-> [text ->]];
    [|by eauto].
  revert H. unfold loginOrRegister, http_NewRequestWithContext, Errorf_v,
    unexpected_status.
  destruct (url_Parse (RemoteAddr +:+ path)); [intros [= <- <-]; eauto|].
  match goal with |- context [f ?q] => destruct (f q) as [resp|?] end;
    [|intros [= <- <-]; eauto].
  repeat case_bool_decide; try (intros [= <- <-]; by eauto).
  - destruct (parseResponse resp zero) as [? [?|]]; intros [= <- <-]; eauto.
  - destruct (parseResponse resp zero) as [l [?|]]; [intros [= <- <-]; eauto|].
    by destruct (LoginResponse.load LoginResponse.zero l).
Qed.

Lemma loginOrRegister_answered f path params :
  login_answered url_Parse f
    (form_request (RemoteAddr +:+ path) (url_Values_Encode params))
    (loginOrRegister url_Parse url_Values_Encode RemoteAddr f path params).
Proof.
  unfold login_answered, loginOrRegister, http_NewRequestWithContext,
    form_request, unexpected_status.
  cbn [URL Header_Set]. destruct (url_Parse (RemoteAddr +:+ path)) as [e|];
    [reflexivity|].
  match goal with |- context [f ?q] => destruct (f q) as [resp|e] end;
    [|reflexivity].
  split.
  - intros H200 H400. rewrite bool_decide_eq_false_2 by done.
    by rewrite bool_decide_eq_true_2 by done.
  - intros raw j l H200 Hbody Hj. rewrite H200.
    rewrite bool_decide_eq_false_2 by done.
    rewrite bool_decide_eq_false_2 by (intros H; by apply H).
    unfold parseResponse. rewrite Hbody, Hj.
    pose proof (load_loaded LoginResponse.zero l) as Hl.
    destruct (LoginResponse.load LoginResponse.zero l) as [r' e'].
    simpl in Hl. by subst r'.
Qed.

(** X3: [Login] and [Register] hand one request to the transport, a POST to
    [RemoteAddr + "/users/login"] and [RemoteAddr + "/users/register"] whose
    body is the encoded form, with the Content-Type and Accept headers and
    no Authorization header, and their result is made of its answer: the
    error of a transport that fails, of a status other than 200 and 400, and
    the loaded response of a 200 answer that decodes.  The transport is
    consulted at no other request. *)
Theorem login_and_register_post_one_form f username password email :
  Login url_Parse url_Values_Encode RemoteAddr f username password
  = Login url_Parse url_Values_Encode RemoteAddr
      (λ _, f (form_request (RemoteAddr +:+ "/users/login")
                 (url_Values_Encode
                    [("username", username); ("password", password)])))
      username password ∧
  Register url_Parse url_Values_Encode RemoteAddr f username password email
  = Register url_Parse url_Values_Encode RemoteAddr
      (λ _, f (form_request (RemoteAddr +:+ "/users/register")
                 (url_Values_Encode
                    [("username", username); ("password", password);
                     ("email", email)])))
      username password email ∧
  (∀ url body,
     Method (form_request url body) = "POST" ∧
     URL (form_request url body) = url ∧
     ReqBody (form_request url body) = body ∧
     Header (form_request url body)
     = {[ "Accept" := "application/json";
          "Content-Type" := "application/x-www-form-urlencoded" ]} ∧
     Header (form_request url body) !! "Authorization" = None) ∧
  login_answered url_Parse f
    (form_request (RemoteAddr +:+ "/users/login")
       (url_Values_Encode [("username", username); ("password", password)]))
    (Login url_Parse url_Values_Encode RemoteAddr f username password) ∧
  login_answered url_Parse f
    (form_request (RemoteAddr +:+ "/users/register")
       (url_Values_Encode
          [("username", username); ("password", password); ("email", email)]))
    (Register url_Parse url_Values_Encode RemoteAddr f username password email).
Proof.
  split_and!.
  - unfold Login, loginOrRegister, http_NewRequestWithContext.
    by destruct (url_Parse _).
  - unfold Register, loginOrRegister, http_NewRequestWithContext.
    by destruct (url_Parse _).
  - intros url body. unfold form_request, Header_Set. simpl. by split_and!.
  - apply loginOrRegister_answered.
  - apply loginOrRegister_answered.
Qed.

(** X4: when the body of a login answered with status 200 does not decode,
    the error [loginOrRegister] returns quotes the whole body as received,
    after the text of the cause. *)
Theorem undecodable_login_answer_is_quoted f path params resp raw doc cause :
  url_Parse (RemoteAddr +:+ path) = None →
  f (form_request (RemoteAddr +:+ path) (url_Values_Encode params)) = inl resp →
  StatusCode resp = StatusOK → Body resp = Bytes raw doc →
  decode_error doc (zero : loginResponse.t) = Some cause →
  loginOrRegister url_Parse url_Values_Encode RemoteAddr f path params
  = (LoginResponse.zero,
     Some (errorString
             ("failed to parse response: failed to unmarshal response: "
              +:+ Error cause +:+ "; raw response: " +:+ raw))).
Proof.
  intros Hurl Hdo H200 Hbody Hdoc.
  unfold loginOrRegister, http_NewRequestWithContext. rewrite Hurl.
  fold (form_request (RemoteAddr +:+ path) (url_Values_Encode params)).
  rewrite Hdo, H200.
  rewrite bool_decide_eq_false_2 by done.
  rewrite bool_decide_eq_false_2 by (intros H; by apply H).
  unfold parseResponse. rewrite Hbody. unfold decode_error in Hdoc.
  destruct doc as [j|e].
  - destruct (unmarshal j zero) as [l o]. simpl in Hdoc. by subst o.
  - by simplify_eq.
Qed.

Lemma loginResponse_member_string k v d :
  string_member (k, v) →
  ∃ d', loginResponse.member k v d = (d', None) ∧
        (same_key k "token" = false →
         loginResponse.Token d' = loginResponse.Token d).
Proof.
  intros [s Hs]. simpl in Hs. subst v. unfold loginResponse.member.
  destruct (same_key k "id"), (same_key k "token"),
    (same_key k "tokenExpires"); simpl; eexists; (split; [done|]); done.
Qed.

Lemma loginResponse_strings members :
  Forall string_member members →
  ∀ d, ∃ d',
    fold_left (λ acc kv,
                 let '(d, e) := loginResponse.member kv.1 kv.2 acc.1 in
                 (d, first_error acc.2 e))
              members (d, None) = (d', None) ∧
    (Forall (λ kv, same_key kv.1 "token" = false) members →
     loginResponse.Token d' = loginResponse.Token d).
Proof.
  induction 1 as [|[k v] members Hkv _ IH]; intros d; simpl.
  - by eauto.
  - destruct (loginResponse_member_string k v d Hkv) as (d1 & -> & Ht).
    simpl. destruct (IH d1) as (d' & -> & Ht').
    eexists. split; [done|]. intros Hall.
    apply Forall_cons in Hall as [Hk Hall]. simpl in Hk.
    rewrite (Ht' Hall). by apply Ht.
Qed.

(** X5: a login answered with status 200 and a JSON object whose members
    are strings, none of them the token, is a successful login: its token
    is the empty string. *)
Theorem tokenless_login_is_accepted f path params resp raw members :
  url_Parse (RemoteAddr +:+ path) = None →
  f (form_request (RemoteAddr +:+ path) (url_Values_Encode params)) = inl resp →
  StatusCode resp = StatusOK → Body resp = Bytes raw (inl (JObject members)) →
  Forall string_member members →
  Forall (λ kv, same_key kv.1 "token" = false) members →
  ∃ r, loginOrRegister url_Parse url_Values_Encode RemoteAddr f path params
       = (r, None) ∧
       LoginResponse.Token r = "".
Proof.
  intros Hurl Hdo H200 Hbody Hstr Htok.
  destruct (loginResponse_strings members Hstr zero) as (l & Hl & Ht).
  exists (loaded l). split.
  - unfold loginOrRegister, http_NewRequestWithContext. rewrite Hurl.
    fold (form_request (RemoteAddr +:+ path) (url_Values_Encode params)).
    rewrite Hdo, H200.
    rewrite bool_decide_eq_false_2 by done.
    rewrite bool_decide_eq_false_2 by (intros H; by apply H).
    unfold parseResponse. rewrite Hbody.
    change (unmarshal (JObject members) (zero : loginResponse.t))
      with (fold_left (λ acc kv,
                 let '(d, e) := loginResponse.member kv.1 kv.2 acc.1 in
                 (d, first_error acc.2 e))
              members (zero : loginResponse.t, None)).
    rewrite Hl.
    pose proof (load_loaded LoginResponse.zero l) as Hload.
    destruct (LoginResponse.load LoginResponse.zero l) as [r' ?].
    simpl in Hload. by subst r'.
  - simpl. by rewrite (Ht Htok).
Qed.

End LoginFacts.

(** ** The methods of the API *)

Section MethodFacts.

Variable url_Parse : string → option error.
Variable filepath_Join : list string → string.
Variable RemoteAddr : string.
Context {T : Type} `{!Unmarshal T}.

Implicit Types (f : Request → Response + error) (tok : string * option error).

Lemma newAuthenticatedGETRequest_built tok ep :
  newAuthenticatedGETRequest url_Parse RemoteAddr tok ep
  = match url_Parse (RemoteAddr +:+ ep) with
    | Some e => (None, Some (Errorf_v "new http GET request: " e))
    | None =>
        (Some (authenticated tok
                 (Header_Set "Accept" "application/json"
                    (new_request "GET" (RemoteAddr +:+ ep) ""))), None)
    end.
Proof.
  unfold newAuthenticatedGETRequest, newGETRequest, http_NewRequestWithContext.
  by destruct (url_Parse _).
Qed.

Lemma newAuthenticatedDELETERequest_built tok ep :
  newAuthenticatedDELETERequest url_Parse RemoteAddr tok ep
  = match url_Parse (RemoteAddr +:+ ep) with
    | Some e => (None, Some (Errorf_v "new http DELETE request: " e))
    | None =>
        (Some (authenticated tok (new_request "DELETE" (RemoteAddr +:+ ep) "")),
         None)
    end.
Proof.
  unfold newAuthenticatedDELETERequest, http_NewRequestWithContext.
  by destruct (url_Parse _).
Qed.

Lemma doSimpleRequest_nil f req :
  (doSimpleRequest f req (None : option T)).2 = None ↔
  ∃ resp, f req = inl resp ∧ StatusCode resp = StatusOK.
Proof.
  unfold doSimpleRequest. destruct (f req) as [resp|e].
  - case_bool_decide; simpl; split; try done.
    + intros (? & [= <-] & ?). done.
    + eauto.
  - split; [done|]. by intros (? & ? & _).
Qed.

Lemma doSimpleRequest_decoded f req (dst r : T) :
  doSimpleRequest f req (Some dst) = (Some r, None) ↔
  ∃ resp raw j, f req = inl resp ∧ StatusCode resp = StatusOK ∧
                Body resp = Bytes raw (inl j) ∧ unmarshal j dst = (r, None).
Proof.
  unfold doSimpleRequest, parseResponse. destruct (f req) as [resp|e].
  2: { split; [done|]. by intros (? & ? & ? & ? & _). }
  case_bool_decide.
  { split; [done|]. intros (? & ? & ? & [= <-] & ? & _). done. }
  destruct (Body resp) as [e|raw [j|e]] eqn:Hbody.
  - split; [done|]. intros (? & ? & ? & [= <-] & _ & ? & _). congruence.
  - destruct (unmarshal j dst) as [d [e|]] eqn:Hj.
    + split; [done|]. intros (? & ? & ? & [= <-] & _ & Hb & ?).
      rewrite Hbody in Hb. simplify_eq. congruence.
    + split.
      * intros [= <-]. by exists resp, raw, j.
      * intros (? & ? & ? & [= <-] & _ & Hb & ?).
        rewrite Hbody in Hb. simplify_eq. congruence.
  - split; [done|]. intros (? & ? & ? & [= <-] & _ & ? & _). congruence.
Qed.

Lemma doSimpleRequest_some f req (dst : T) :
  ∃ r, (doSimpleRequest f req (Some dst)).1 = Some r.
Proof.
  unfold doSimpleRequest. destruct (f req) as [resp|e]; [|by eauto].
  case_bool_decide; [by eauto|].
  destruct (parseResponse resp dst) as [d [e|]]; by eauto.
Qed.

(** X6: [DeleteBoard], whose destination is nil, succeeds exactly when the
    URL is accepted and the transport answers the DELETE request with status
    200: the body of the answer plays no part, nor does the type of the
    destination. *)
Theorem DeleteBoard_succeeds_iff f tok boardID :
  let url := RemoteAddr +:+ "/api/" +:+ filepath_Join ["boards"; boardID] in
  (DeleteBoard url_Parse filepath_Join RemoteAddr f tok (T:=T) boardID = None ↔
   url_Parse url = None ∧
   ∃ resp, f (authenticated tok (new_request "DELETE" url "")) = inl resp ∧
           StatusCode resp = StatusOK) ∧
  ∀ (T' : Type) (U : Unmarshal T'),
    DeleteBoard url_Parse filepath_Join RemoteAddr f tok (T:=T') boardID
    = DeleteBoard url_Parse filepath_Join RemoteAddr f tok (T:=T) boardID.
Proof.
  intros url. unfold DeleteBoard, endpoint.
  rewrite newAuthenticatedDELETERequest_built. fold url. split.
  - destruct (url_Parse url) as [e|].
    + split; [done|]. by intros [? _].
    + rewrite doSimpleRequest_nil. split; [by eauto|]. by intros [_ ?].
  - intros T' U.
    destruct (url_Parse url); [done|].
    unfold doSimpleRequest. destruct (f _); [|done]. by case_bool_decide.
Qed.

(** X7: [GetPublicBoards] returns a result without error exactly when
    the URL is accepted, the transport answers the authenticated GET request
    with status 200, and the body is a JSON document that decodes into the
    result without error.  When the body does not decode, the result is
    what the decoder had filled in by then, returned together with an error
    that quotes the body. *)
Theorem GetPublicBoards_result f tok :
  let url := RemoteAddr +:+ "/api/" +:+ filepath_Join ["boards"] in
  let req := authenticated tok
               (Header_Set "Accept" "application/json" (new_request "GET" url "")) in
  (∀ boards : T,
     GetPublicBoards url_Parse filepath_Join RemoteAddr f tok = (boards, None) ↔
     url_Parse url = None ∧
     ∃ resp raw j, f req = inl resp ∧ StatusCode resp = StatusOK ∧
                   Body resp = Bytes raw (inl j) ∧
                   unmarshal j zero = (boards, None)) ∧
  (∀ resp raw doc cause,
     url_Parse url = None → f req = inl resp → StatusCode resp = StatusOK →
     Body resp = Bytes raw doc → decode_error doc (zero : T) = Some cause →
     GetPublicBoards url_Parse filepath_Join RemoteAddr f tok
     = (decoded doc zero,
        Some (errorString
                ("failed to parse response: failed to unmarshal response: "
                 +:+ Error cause +:+ "; raw response: " +:+ raw)))).
Proof.
  intros url req. unfold GetPublicBoards, endpoint.
  rewrite newAuthenticatedGETRequest_built. fold url. fold req. split.
  - intros boards. destruct (url_Parse url) as [e|].
    { split; [done|]. by intros [? _]. }
    destruct (doSimpleRequest f req (Some zero)) as [r e] eqn:Hdo.
    destruct (doSimpleRequest_some f req zero) as [r' Hr].
    rewrite Hdo in Hr. simpl in Hr. subst r. simpl.
    rewrite <- (doSimpleRequest_decoded f req zero boards). rewrite Hdo.
    split.
    + intros [= -> ->]. by split.
    + intros [_ [= -> ->]]. done.
  - intros resp raw doc cause -> Hdo H200 Hbody Hdoc.
    unfold doSimpleRequest, parseResponse. rewrite Hdo, H200, Hbody.
    rewrite bool_decide_eq_false_2 by (intros H; by apply H).
    unfold decode_error, decoded in *. destruct doc as [j|e].
    + destruct (unmarshal j zero) as [d o]. simpl in *. by subst o.
    + by simplify_eq.
Qed.

(** X8: [ExportJSON] fetches the token first.  When that fails it returns
    the error of [c.token] itself, and nothing is sent.  With a token it
    hands one GET request to the transport, whose URL holds the token and
    which carries the Accept header and no Authorization header, and its
    result is made of the answer: the error of a transport that fails, and
    a result without error exactly when the answer has status 200 and a
    body that decodes; every error it then returns is a fresh one. *)
Theorem ExportJSON_token_first f token boardID :
  let url := RemoteAddr +:+ "/api/"
             +:+ filepath_Join ["boards"; boardID; "export?authToken=" +:+ token] in
  let req := Header_Set "Accept" "application/json" (new_request "GET" url "") in
  (∀ err, ExportJSON url_Parse filepath_Join RemoteAddr f (token, Some err)
            (T:=T) boardID = (zero, Some err)) ∧
  ExportJSON url_Parse filepath_Join RemoteAddr f (token, None) (T:=T) boardID
  = ExportJSON url_Parse filepath_Join RemoteAddr (λ _, f req) (token, None)
      boardID ∧
  Header req !! "Authorization" = None ∧
  fresh_error (ExportJSON url_Parse filepath_Join RemoteAddr f (token, None)
                 (T:=T) boardID).2 ∧
  (∀ e, url_Parse url = None → f req = inr e →
     ExportJSON url_Parse filepath_Join RemoteAddr f (token, None) (T:=T) boardID
     = (zero, Some (errorString ("failed to send POST request: " +:+ Error e)))) ∧
  (∀ resp, url_Parse url = None → f req = inl resp → StatusCode resp ≠ StatusOK →
     ExportJSON url_Parse filepath_Join RemoteAddr f (token, None) (T:=T) boardID
     = (zero, Some (errorString
                      ("unexpected status code '" +:+ pretty (StatusCode resp)
                       +:+ "' received")))) ∧
  (∀ boardJSON : T,
     ExportJSON url_Parse filepath_Join RemoteAddr f (token, None) boardID
     = (boardJSON, None) ↔
     url_Parse url = None ∧
     ∃ resp raw j, f req = inl resp ∧ StatusCode resp = StatusOK ∧
                   Body resp = Bytes raw (inl j) ∧
                   unmarshal j zero = (boardJSON, None)).
Proof.
  intros url req. split_and!; try done.
  - unfold ExportJSON, endpoint, newGETRequest, http_NewRequestWithContext.
    fold url. by destruct (url_Parse url).
  - unfold ExportJSON, endpoint, newGETRequest, http_NewRequestWithContext,
      Errorf_v.
    fold url. destruct (url_Parse url); simpl; [by eauto|].
    match goal with
    | |- context [doSimpleRequest f ?q ?d] =>
        pose proof (doSimpleRequest_fresh f q d) as Hf;
        by destruct (doSimpleRequest f q d) as [r e]
    end.
  - intros e Hurl Hdo.
    unfold ExportJSON, endpoint, newGETRequest, http_NewRequestWithContext.
    fold url. rewrite Hurl. simpl. unfold doSimpleRequest.
    fold (new_request "GET" url ""). fold req. by rewrite Hdo.
  - intros resp Hurl Hdo Hcode.
    unfold ExportJSON, endpoint, newGETRequest, http_NewRequestWithContext.
    fold url. rewrite Hurl. simpl. unfold doSimpleRequest.
    fold (new_request "GET" url ""). fold req. rewrite Hdo.
    by rewrite bool_decide_eq_true_2 by done.
  - intros boardJSON.
    unfold ExportJSON, endpoint, newGETRequest, http_NewRequestWithContext.
    fold url. destruct (url_Parse url) as [e|].
    { split; [done|]. by intros [? _]. }
    simpl. fold (new_request "GET" url ""). fold req.
    destruct (doSimpleRequest f req (Some zero)) as [r e] eqn:Hdo.
    destruct (doSimpleRequest_some f req zero) as [r' Hr].
    rewrite Hdo in Hr. simpl in Hr. subst r. simpl.
    rewrite <- (doSimpleRequest_decoded f req zero boardJSON). rewrite Hdo.
    split.
    + intros [= -> ->]. by split.
    + intros [_ [= -> ->]]. done.
Qed.

(** X9: every error of [GetPublicBoards], [NewBoard], [DeleteBoard],
    [AddBoardLabel], [GetBoardsFromUser], [GetUser], [GetCard] and
    [DeleteCard] is a fresh error of [fmt.Errorf], whatever the transport
    and [c.token] return: [errors.Is] matches it with no package-level
    error, so [GetCard] never returns [ErrNotFound], and neither shutdown
    nor the end of the caller's context shows in the error. *)
Theorem method_errors_are_fresh f tok request label boardID listID cardID userID :
  fresh_error (GetPublicBoards url_Parse filepath_Join RemoteAddr f tok (T:=T)).2 ∧
  fresh_error (NewBoard url_Parse filepath_Join RemoteAddr f tok (T:=T) request).2 ∧
  fresh_error (DeleteBoard url_Parse filepath_Join RemoteAddr f tok (T:=T) boardID) ∧
  fresh_error (AddBoardLabel url_Parse filepath_Join RemoteAddr f tok (T:=T)
                 boardID label) ∧
  fresh_error (GetBoardsFromUser url_Parse filepath_Join RemoteAddr f tok (T:=T)
                 userID).2 ∧
  fresh_error (GetUser url_Parse filepath_Join RemoteAddr f tok (T:=T) userID).2 ∧
  fresh_error (GetCard url_Parse filepath_Join RemoteAddr f tok (T:=T)
                 boardID listID cardID).2 ∧
  fresh_error (DeleteCard url_Parse RemoteAddr f tok (T:=T) boardID cardID) ∧
  ∀ e target, fresh_error (Some e) → errors_Is e target = false.
Proof.
  split_and!; try apply fresh_error_is.
  all: unfold GetPublicBoards, NewBoard, DeleteBoard, AddBoardLabel,
         GetBoardsFromUser, GetUser, GetCard, DeleteCard,
         newAuthenticatedGETRequest, newGETRequest, newAuthenticatedPOSTRequest,
         newAuthenticatedPUTRequest, newAuthenticatedDELETERequest,
         http_NewRequestWithContext, Errorf_v.
  all: repeat match goal with
       | |- context [match ?p with (_, _) => _ end] =>
           is_var p; destruct p as [? [?|]]
       end; simpl; try by eauto.
  all: destruct (url_Parse _); simpl; try by eauto.
  all: match goal with
       | |- context [doSimpleRequest ?g ?q ?d] =>
           pose proof (doSimpleRequest_fresh g q d) as Hf;
           destruct (doSimpleRequest g q d) as [r [e|]]
       end; simpl in *; try done.
  destruct Hf as [text ->]. simpl. by eauto.
Qed.

(** X10: [GetBoardsFromUser] sends the request of [GetUser]: each consults
    the transport at one request only, the authenticated GET of
    [RemoteAddr + "/api/" + filepath.Join("users", userID)], and for one
    destination type the two methods are the same function of the transport,
    the token and the user id. *)
Theorem GetBoardsFromUser_sends_GetUser f tok userID :
  let url := RemoteAddr +:+ "/api/" +:+ filepath_Join ["users"; userID] in
  let req := authenticated tok
               (Header_Set "Accept" "application/json" (new_request "GET" url "")) in
  GetBoardsFromUser url_Parse filepath_Join RemoteAddr f tok (T:=T) userID
  = GetBoardsFromUser url_Parse filepath_Join RemoteAddr (λ _, f req) tok userID ∧
  GetUser url_Parse filepath_Join RemoteAddr f tok (T:=T) userID
  = GetUser url_Parse filepath_Join RemoteAddr (λ _, f req) tok userID ∧
  GetBoardsFromUser url_Parse filepath_Join RemoteAddr f tok (T:=T) userID
  = GetUser url_Parse filepath_Join RemoteAddr f tok userID.
Proof.
  intros url req. split_and!; [| |done].
  all: unfold GetBoardsFromUser, GetUser, endpoint.
  all: rewrite newAuthenticatedGETRequest_built; fold url; fold req.
  all: by destruct (url_Parse url).
Qed.

(** X11: since [filepath.Join] leaves out empty elements, [GetBoard] with
    the empty board id sends the request of [GetPublicBoards] and treats the
    answer as [GetPublicBoards] does. *)
Theorem GetBoard_without_id_lists_boards f tok :
  filepath_Join ["boards"; ""] = filepath_Join ["boards"] →
  GetBoard url_Parse filepath_Join RemoteAddr f tok (Board:=T) ""
  = GetPublicBoards url_Parse filepath_Join RemoteAddr f tok.
Proof.
  intros Hjoin. unfold GetBoard, GetPublicBoards, endpoint. rewrite Hjoin.
  destruct (newAuthenticatedGETRequest _ _ _ _) as [[req|] [e|]]; try done.
  pose proof (doSimpleRequest_fresh f req (Some zero)) as Hf.
  destruct (doSimpleRequest f req (Some zero)) as [r [e|]]; [|done].
  destruct Hf as [text ->]. done.
Qed.

End MethodFacts.

(** ** From the broker to the request *)

Section EndToEnd.
Context {env : Surroundings}.

(** X20: whatever [c.token] has returned to a caller, the Authorization
    header a builder makes of it, when it makes one, is "Bearer " followed
    by the token of a login of this client that succeeded. *)
Theorem authorization_header_is_an_issued_token s i tok err path marshalled :
  reachable s → result s i = Some (tok, err) →
  ∀ build h,
    build ∈ [newAuthenticatedGETRequest env_url_Parse (RemoteAddr (opts s))
               (tok, err) path;
             newAuthenticatedPOSTRequest env_url_Parse (RemoteAddr (opts s))
               (tok, err) path marshalled;
             newAuthenticatedPUTRequest env_url_Parse (RemoteAddr (opts s))
               (tok, err) path marshalled;
             newAuthenticatedDELETERequest env_url_Parse (RemoteAddr (opts s))
               (tok, err) path] →
    authorization build = Some h →
    err = None ∧ ∃ r, r ∈ logins s ∧ h = "Bearer " +:+ LoginResponse.Token r.
Proof.
  intros Hs Hres build h Hbuild Hh.
  pose proof (reachable_invariants s Hs) as [_ _ _ [_ Htok _ _]].
  unfold result in Hres. destruct (callers s !! i) as [c|] eqn:Hi; [|done].
  simpl in Hres. destruct (at_ c) as [| | | |t e] eqn:Hat; try done.
  simplify_eq.
  assert (err = None → ∃ r, r ∈ logins s ∧ tok = LoginResponse.Token r) as Hiss.
  { intros ->. exact (Htok i c tok Hi Hat). }
  revert Hh. unfold authorization.
  repeat (apply elem_of_cons in Hbuild as [->|Hbuild]);
    [..|by apply elem_of_nil in Hbuild].
  all: unfold newAuthenticatedGETRequest, newGETRequest,
         newAuthenticatedPOSTRequest, newAuthenticatedPUTRequest,
         newAuthenticatedDELETERequest, http_NewRequestWithContext,
         authenticateRequest.
  all: try destruct marshalled as [? [?|]]; simpl; try done.
  all: destruct (env_url_Parse _); simpl; try done.
  all: destruct err as [e'|]; simpl; rewrite ?lookup_insert_ne by done;
         try done.
  all: rewrite lookup_insert_eq; intros [= <-].
  all: destruct (Hiss eq_refl) as (r & Hr & ->); by eauto.
Qed.

End EndToEnd.

(** ** The scenario, run *)

Example fetch_renew_fetch_tokens :
  let s := Scenario.after Scenario.fetch_renew_fetch in
  result s 0 = Some ("t1", None) ∧ result s 1 = Some ("t2", None) ∧
  GetCurrentUserID s = "u2".
Proof. vm_compute. repeat split; reflexivity. Qed.

Lemma reached_after ls s :
  Scenario.runs Scenario.start ls = Some s → Scenario.reached s.
Proof. intros H. by exists Scenario.options, Scenario.t0, ls. Qed.

(** C1: a login response whose tokenExpires does not parse is not treated as
    a failed attempt: [loginOrRegister] drops the error of [load] and returns
    the response with the zero time as expiry and no error, so the client is
    constructed on it, holds its token, and arms the renewal timer some 292
    years ahead.  A response whose JSON is malformed is retried. *)
Theorem unparsable_expiry_is_adopted :
  let bad := Scenario.answer "u1" "t1" "tomorrow" in
  let session := {| LoginResponse.ID := "u1"; LoginResponse.Token := "t1";
                    LoginResponse.TokenExpires := Time_zero |} in
  let s := Scenario.after [LoginAnswer bad; Return] in
  Parse_RFC3339 "tomorrow" = (Time_zero, Some (time_ParseError "tomorrow")) ∧
  @Login_with Scenario.surroundings Scenario.options bad
  = (session, None) ∧
  Scenario.runs Scenario.start [LoginAnswer bad; Return] = Some s ∧
  pc s = Select ∧ constructed s = true ∧ logins s = [session] ∧
  token s = "t1" ∧ tokenExpires s = Time_zero ∧
  timer s = Some (Scenario.t0 + (2 ^ 63 - 5 * Second)) ∧
  pc (Scenario.after [LoginAnswer Scenario.truncated])
  = Sleeping Init (Scenario.t0 + Second).
Proof. vm_compute. repeat split; reflexivity. Qed.

(** C9, at the state where the routine has received the handoff of caller 0:
    the reply goes through and hands over t1, and the second select of the
    caller then returns t1. *)
Lemma accepted_request_gets_one_token_witness :
  let s := Scenario.after Scenario.handoff_received in
  let s1 := Scenario.after (Scenario.handoff_received ++ [Send]) in
  Scenario.reached s ∧ pc s = Reply 0 ∧
  (∃ c s', callers s !! 0%nat = Some c ∧ tokenChan c = None ∧
           Scenario.takes s Send = Some s' ∧ pc s' = Select ∧
           delivered 0 "t1" s') ∧
  Scenario.takes s Send = Some s1 ∧
  ∃ s2, Scenario.takes s1 (CallerSelect 0 CComm) = Some s2 ∧
        result s2 0 = Some ("t1", None).
Proof.
  intros s s1.
  assert (Scenario.reached s) as H
    by (apply (reached_after Scenario.handoff_received); vm_compute; reflexivity).
  assert (Scenario.reached s1) as H1
    by (apply (reached_after (Scenario.handoff_received ++ [Send]));
        vm_compute; reflexivity).
  assert (pc s = Reply 0) as Hpc by (vm_compute; reflexivity).
  assert (token s = "t1") as Htok by (vm_compute; reflexivity).
  split; [exact H|]. split; [exact Hpc|].
  split.
  - destruct (accepted_request_gets_one_token s H) as (_ & _ & _ & Hr & _).
    destruct (Hr 0%nat Hpc) as [_ Hsend]. rewrite Htok in Hsend. exact Hsend.
  - split; [vm_compute; reflexivity|].
    destruct (accepted_request_gets_one_token s1 H1)
      as (_ & _ & _ & _ & _ & Hrecv & _).
    apply (Hrecv 0%nat {| at_ := Await; ctxErr := None; tokenChan := Some "t1" |});
      vm_compute; reflexivity.
Defined.

(** C2, over the stretch in which the two fetches of the scenario are
    served: both return t1, the token of the only login so far. *)
Lemma token_requests_read_current_token_witness :
  let s := Scenario.after Scenario.serving in
  let s' := Scenario.after (Scenario.serving ++ Scenario.two_fetches) in
  Scenario.reached s ∧ Scenario.runs s Scenario.two_fetches = Some s' ∧
  logins s' = logins s ∧
  result s' 0 = Some ("t1", None) ∧ result s' 1 = Some ("t1", None) ∧
  ∀ i c t, not_accepted s i → callers s' !! i = Some c →
    at_ c = Returned t None →
    ∃ r rest, logins s = r :: rest ∧ t = LoginResponse.Token r.
Proof.
  intros s s'.
  assert (Scenario.reached s) as H
    by (apply (reached_after Scenario.serving); vm_compute; reflexivity).
  assert (Scenario.runs s Scenario.two_fetches = Some s') as Hrun
    by (vm_compute; reflexivity).
  assert (logins s' = logins s) as Hlog by (vm_compute; reflexivity).
  split; [exact H|]. split; [exact Hrun|]. split; [exact Hlog|].
  split; [vm_compute; reflexivity|]. split; [vm_compute; reflexivity|].
  exact (proj2 (token_requests_read_current_token s _ s' H Hrun Hlog)).
Defined.

(** C3 (amended), at the state where the client has been closed while
    caller 0 was blocked: the caller has got the closed error. *)
Lemma shutdown_unblocks_token_fetches_witness :
  let s := Scenario.after Scenario.closed_while_waiting in
  Scenario.reached s ∧ closing s = true ∧
  result s 0 = Some ("", Some ErrClosed) ∧
  ∀ i tok err, result s i = Some (tok, err) →
    (err = None ∧ issued s tok) ∨
    (tok = "" ∧ err = Some ErrClosed ∧ closing s = true) ∨
    (tok = "" ∧ ∃ why c, err = Some (ctx_Err why) ∧
                         callers s !! i = Some c ∧ ctxErr c = err).
Proof.
  intros s.
  assert (Scenario.reached s) as H
    by (apply (reached_after Scenario.closed_while_waiting);
        vm_compute; reflexivity).
  split; [exact H|]. split; [vm_compute; reflexivity|].
  split; [vm_compute; reflexivity|].
  exact (proj2 (proj2 (shutdown_unblocks_token_fetches s H))).
Defined.

(** It fails for a caller whose own context has ended: both cases of the
    first select are ready, and the select may take [ctx.Done()], which
    returns [context.Canceled]. *)
Lemma fetch_after_shutdown_may_return_ctx_error :
  ¬ fetch_after_shutdown_fails_closed.
Proof.
  intros Hclaim.
  pose (s := Scenario.after [LoginAnswer Scenario.first_login; Return; Close]).
  pose (s1 := default s (Scenario.takes s (Fetch 0 (Some Cancelled)))).
  pose (s2 := default s1 (Scenario.takes s1 (CallerSelect 0 CDone))).
  assert (Scenario.reached s) as H
    by (apply (reached_after [LoginAnswer Scenario.first_login; Return; Close]);
        vm_compute; reflexivity).
  assert (closing s = true) as Hcl by (vm_compute; reflexivity).
  assert (Scenario.takes s (Fetch 0 (Some Cancelled)) = Some s1) as H1
    by (vm_compute; reflexivity).
  assert (Scenario.takes s1 (CallerSelect 0 CDone) = Some s2) as H2
    by (vm_compute; reflexivity).
  assert (result s2 0 = Some ("", Some (Sentinel context_Canceled))) as Hres
    by (vm_compute; reflexivity).
  specialize (Hclaim s 0%nat (Some Cancelled) CDone s1 s2 H Hcl H1 H2).
  rewrite Hres in Hclaim. discriminate Hclaim.
Qed.

(** C4 (amended), when the first login is about to be adopted: the timer is
    armed for 12:30:05, five seconds before the expiry. *)
Lemma renewal_timer_schedule_witness :
  let s := Scenario.after [LoginAnswer Scenario.first_login] in
  Scenario.reached s ∧
  ∃ s', Scenario.takes s Return = Some s' ∧
        timer s' = Some (1684326610000000000 - 5 * Second).
Proof.
  intros s.
  assert (Scenario.reached s) as H
    by (apply (reached_after [LoginAnswer Scenario.first_login]);
        vm_compute; reflexivity).
  split; [exact H|].
  destruct (renewal_timer_schedule s H) as (Hret & _).
  destruct (Hret Init
              {| LoginResponse.ID := "u1"; LoginResponse.Token := "t1";
                 LoginResponse.TokenExpires := 1684326610000000000 |})
    as (s' & Hstep & _ & _ & _ & Hrange); [vm_compute; reflexivity|].
  exists s'. split; [exact Hstep|]. apply Hrange.
  vm_compute. split; discriminate.
Defined.

(** It fails for an expiry further from the clock than a Duration can hold:
    a token valid until the year 2400 has its timer armed some 292 years
    ahead. *)
Lemma timer_saturates_for_far_expiry : ¬ timer_fires_at_margin.
Proof.
  intros Hclaim.
  pose (ls := [LoginAnswer (Scenario.answer "u1" "t1" "2400-01-01T00:00:00Z");
               Return]).
  pose (s := Scenario.after ls).
  assert (Scenario.reached s) as H
    by (apply (reached_after ls); vm_compute; reflexivity).
  assert (timer s = Some (Scenario.t0 + (2 ^ 63 - 1 - 5 * Second))) as Ht
    by (vm_compute; reflexivity).
  specialize (Hclaim s _ H Ht).
  vm_compute in Hclaim. discriminate Hclaim.
Qed.

(** C5, on the run in which the server is down until the client is closed:
    every attempt fails, and no client is constructed. *)
Lemma construction_fails_only_by_cancellation_witness :
  let s := Scenario.after Scenario.never_logged_in in
  Scenario.runs Scenario.start Scenario.never_logged_in = Some s ∧
  pc s = Failed (Sentinel context_Canceled) ∧
  (constructed s = false ∧
   (ctxDone s = false → pc s = LoginCall Init ∨ ∃ u, pc s = Sleeping Init u)).
Proof.
  intros s.
  assert (Scenario.runs Scenario.start Scenario.never_logged_in = Some s) as H
    by (vm_compute; reflexivity).
  split; [exact H|]. split; [vm_compute; reflexivity|].
  destruct (construction_fails_only_by_cancellation _ _ _ s H)
    as (_ & _ & Hall & _).
  apply Hall. unfold Scenario.never_logged_in.
  repeat (apply Forall_cons; split); [..|constructor];
    unfold fails; intros answer Heq;
    first [ discriminate Heq
          | injection Heq as <-; eexists _, _; vm_compute; reflexivity ].
Defined.

(** C6, for the scenario's client, which asks for an interval of zero: it
    is the client that asks for one second. *)
Lemma retry_interval_fixed_and_floored_witness :
  let ls := [LoginAnswer Scenario.refused; Advance Second; Wake] in
  let s := Scenario.after ls in
  Scenario.runs Scenario.start ls = Some s ∧
  TimeBetweenLoginAttemps Scenario.options < Second ∧
  (NewClient Scenario.options Scenario.t0
   = NewClient (with_interval Second Scenario.options) Scenario.t0 ∧
   Scenario.runs (NewClient (with_interval Second Scenario.options) Scenario.t0) ls
   = Some s).
Proof.
  intros ls s.
  assert (Scenario.runs Scenario.start ls = Some s) as H
    by (vm_compute; reflexivity).
  assert (TimeBetweenLoginAttemps Scenario.options < Second) as Hlt
    by reflexivity.
  split; [exact H|]. split; [exact Hlt|].
  exact (proj1 (retry_interval_fixed_and_floored _ _ _ s H) Hlt).
Defined.

(** C7 (amended), while the second login is about to be adopted. *)
Lemma session_replaced_together_witness :
  let s := Scenario.after Scenario.renewing in
  Scenario.reached s ∧ session_of s.
Proof.
  intros s.
  assert (Scenario.reached s) as H
    by (apply (reached_after Scenario.renewing); vm_compute; reflexivity).
  split; [exact H|].
  exact (proj1 (session_replaced_together s H)).
Defined.

(** It fails between the success of a renewal and its adoption: the user id
    is u2, of the second login, and the token still t1, of the first, which
    is also the token caller 0 has been handed. *)
Lemma user_id_ahead_of_token : ¬ session_is_one_login.
Proof.
  intros Hclaim.
  pose (s := Scenario.after Scenario.renewing).
  assert (Scenario.reached s) as H
    by (apply (reached_after Scenario.renewing); vm_compute; reflexivity).
  assert (constructed s = true) as Hc by (vm_compute; reflexivity).
  assert (pc s ≠ Exited) as Hpc by (vm_compute; discriminate).
  assert (result s 0 = Some ("t1", None)) as _ by (vm_compute; reflexivity).
  assert (token s = "t1" ∧ GetCurrentUserID s = "u2") as [Htok Hid]
    by (vm_compute; split; reflexivity).
  assert (logins s
          = [{| LoginResponse.ID := "u2"; LoginResponse.Token := "t2";
                LoginResponse.TokenExpires := 1684326616000000000 |};
             {| LoginResponse.ID := "u1"; LoginResponse.Token := "t1";
                LoginResponse.TokenExpires := 1684326610000000000 |}]) as Hl
    by (vm_compute; reflexivity).
  destruct (Hclaim s H Hc Hpc) as (r & Hin & Ht & _ & Hu).
  rewrite Hl in Hin. rewrite Htok in Ht. rewrite Hid in Hu.
  apply elem_of_cons in Hin as [->|Hin]; [discriminate Ht|].
  apply elem_of_cons in Hin as [->|Hin]; [discriminate Hu|].
  by apply elem_of_nil in Hin.
Qed.

(** X2, when the server refuses the connection. *)
Lemma loginOrRegister_failure_witness :
  let call :=
    loginOrRegister (λ _, None) Scenario.form_text "https://wekan.example"
      (λ _, Scenario.refused) "/users/login"
      [("username", "user"); ("password", "secret")] in
  call.1 = LoginResponse.zero ∧
  ∃ e, call.2 = Some e ∧ ∀ target, errors_Is e target = false.
Proof.
  intros call.
  assert (call = (call.1, Some (default (errorString "") call.2))) as H
    by (vm_compute; reflexivity).
  destruct (loginOrRegister_failure _ _ _ _ _ _ _ _ H) as (Hr & _ & He).
  split; [exact Hr|].
  exists (default (errorString "") call.2). split; [|exact He].
  vm_compute; reflexivity.
Defined.

(** X4, for an answer whose expiry is a number: the error ends with the
    body, token included. *)
Lemma undecodable_login_answer_is_quoted_witness :
  loginOrRegister (λ _, None) Scenario.form_text "https://wekan.example"
    (Scenario.always Scenario.mistyped) "/users/login"
    [("username", "user"); ("password", "secret")]
  = (LoginResponse.zero,
     Some (errorString
             ("failed to parse response: failed to unmarshal response: "
              +:+ Error (json_UnmarshalTypeError "number" "loginResponse"
                           "tokenExpires" "string")
              +:+ "; raw response: " +:+ Scenario.mistyped_text))) ∧
  Error (json_UnmarshalTypeError "number" "loginResponse" "tokenExpires" "string")
  = "json: cannot unmarshal number into Go struct field loginResponse.tokenExpires of type string".
Proof.
  split; [|reflexivity].
  apply (undecodable_login_answer_is_quoted (λ _, None) Scenario.form_text
           "https://wekan.example" (Scenario.always Scenario.mistyped)
           "/users/login" [("username", "user"); ("password", "secret")]
           Scenario.mistyped Scenario.mistyped_text
           (inl (JObject [("token", JString "t1");
                          ("tokenExpires", JNumber "1684326610")])));
    reflexivity.
Defined.

(** X5, for an answer without a token. *)
Lemma tokenless_login_is_accepted_witness :
  ∃ r, loginOrRegister (λ _, None) Scenario.form_text "https://wekan.example"
         (Scenario.always Scenario.tokenless) "/users/login"
         [("username", "user"); ("password", "secret")]
       = (r, None) ∧
       LoginResponse.Token r = "".
Proof.
  apply (tokenless_login_is_accepted (λ _, None) Scenario.form_text
           "https://wekan.example" (Scenario.always Scenario.tokenless)
           "/users/login" [("username", "user"); ("password", "secret")]
           Scenario.tokenless
           (Scenario.object_text
              [("id", "u1"); ("tokenExpires", "2023-05-17T12:30:10Z")])
           [("id", JString "u1");
            ("tokenExpires", JString "2023-05-17T12:30:10Z")]);
    try reflexivity.
  - repeat constructor; eexists; reflexivity.
  - repeat constructor.
Defined.

(** X11, with the segments joined as [filepath.Join] joins clean ones. *)
Lemma GetBoard_without_id_lists_boards_witness :
  Scenario.join ["boards"; ""] = Scenario.join ["boards"] ∧
  GetBoard (λ _, None) Scenario.join "https://wekan.example"
    (Scenario.always Scenario.tokenless) ("t1", None) (Board:=loginResponse.t) ""
  = GetPublicBoards (λ _, None) Scenario.join "https://wekan.example"
      (Scenario.always Scenario.tokenless) ("t1", None).
Proof.
  assert (Scenario.join ["boards"; ""] = Scenario.join ["boards"]) as H
    by reflexivity.
  split; [exact H|].
  exact (GetBoard_without_id_lists_boards _ _ _ _ _ H).
Defined.

(** X12, for caller 0 blocked in its first select: the cancellation of its
    context makes it return [context.Canceled]. *)
Lemma cancellation_unblocks_the_fetch_witness :
  let s := Scenario.after Scenario.fetch_waiting in
  Scenario.reached s ∧
  ∃ s', Scenario.takes s (Cancel 0 Cancelled) = Some s' ∧
        result s' 0 = Some ("", Some (Sentinel context_Canceled)).
Proof.
  intros s.
  assert (Scenario.reached s) as H
    by (apply (reached_after Scenario.fetch_waiting); vm_compute; reflexivity).
  split; [exact H|].
  destruct (cancellation_unblocks_the_fetch s H) as (Hc & _).
  apply (Hc 0%nat {| at_ := HandoffParked; ctxErr := None; tokenChan := None |}
           Cancelled); vm_compute; reflexivity.
Defined.

(** X13, for a token that is valid for three seconds. *)
Lemma short_lived_token_is_renewed_at_once_witness :
  let s := Scenario.after [LoginAnswer Scenario.short_lived] in
  ∃ s1 s2 s3,
    Scenario.takes s Return = Some s1 ∧ token s1 = "t1" ∧
    Scenario.takes s1 Fire = Some s2 ∧
    Scenario.takes s2 (RoutineSelect RBlock) = None ∧
    Scenario.takes s2 (RoutineSelect RExpired) = Some s3 ∧
    pc s3 = LoginCall Renew ∧ now s3 = now s.
Proof.
  intros s.
  apply (@short_lived_token_is_renewed_at_once Scenario.surroundings s Init
           {| LoginResponse.ID := "u1"; LoginResponse.Token := "t1";
              LoginResponse.TokenExpires := 1684326603000000000 |}).
  - vm_compute; reflexivity.
  - vm_compute. split; discriminate.
  - vm_compute. discriminate.
Defined.

(** X14, at the end of the scenario: the user of the second login. *)
Lemma current_user_is_latest_login_witness :
  let s := Scenario.after Scenario.fetch_renew_fetch in
  Scenario.reached s ∧
  GetCurrentUserID s = match logins s with
                       | [] => ""
                       | r :: _ => LoginResponse.ID r
                       end.
Proof.
  intros s.
  assert (Scenario.reached s) as H
    by (apply (reached_after Scenario.fetch_renew_fetch);
        vm_compute; reflexivity).
  split; [exact H|]. exact (current_user_is_latest_login s H).
Defined.

(** X16, for a client closed while its construction sleeps. *)
Lemma shutdown_can_always_complete_witness :
  let s := Scenario.after Scenario.closed_asleep in
  Scenario.reached s ∧ closing s = true ∧
  ∃ ls s', Scenario.runs s ls = Some s' ∧ (length ls ≤ 4)%nat ∧
           Forall (λ l, caller_label l = false) ls ∧
           (pc s' = Exited ∨ ∃ e, pc s' = Failed e) ∧
           logins s' = logins s.
Proof.
  intros s.
  assert (Scenario.reached s) as H
    by (apply (reached_after Scenario.closed_asleep); vm_compute; reflexivity).
  assert (closing s = true) as Hcl by (vm_compute; reflexivity).
  split; [exact H|]. split; [exact Hcl|].
  exact (shutdown_can_always_complete s H Hcl).
Defined.

(** X15, for the same client: half a second after the failed attempt it
    still sleeps, though it has been closed. *)
Lemma retry_sleep_is_not_interrupted_witness :
  let s := Scenario.after [LoginAnswer Scenario.refused] in
  let ls := [Close; CtxCancel; Advance (Second / 2)] in
  let s' := Scenario.after Scenario.closed_asleep in
  Scenario.runs s ls = Some s' ∧ closing s' = true ∧
  pc s' = Sleeping Init (Scenario.t0 + Second) ∧ logins s' = logins s.
Proof.
  intros s ls s'.
  assert (Scenario.runs s ls = Some s') as Hrun by (vm_compute; reflexivity).
  split; [exact Hrun|]. split; [vm_compute; reflexivity|].
  apply (@retry_sleep_is_not_interrupted Scenario.surroundings ls s s' Init
           (Scenario.t0 + Second)).
  - vm_compute; reflexivity.
  - exact Hrun.
  - vm_compute; reflexivity.
Defined.

(** X18, for an address without a scheme: the server would accept the
    login, and the construction goes on sleeping. *)
Lemma malformed_address_never_constructs_witness :
  let ls := [LoginAnswer Scenario.first_login; Advance Second; Wake;
             LoginAnswer Scenario.first_login] in
  let start := NewClient Scenario.no_scheme_options Scenario.t0 in
  let s := default start (@run Scenario.no_scheme start ls) in
  @run Scenario.no_scheme start ls = Some s ∧
  constructed s = false ∧ logins s = [] ∧ GetCurrentUserID s = "".
Proof.
  intros ls start s.
  assert (@run Scenario.no_scheme start ls = Some s) as Hrun
    by (vm_compute; reflexivity).
  split; [exact Hrun|].
  refine (proj2 (@malformed_address_never_constructs Scenario.no_scheme
                   Scenario.no_scheme_options Scenario.t0 _ ls s _ Hrun)).
  vm_compute; reflexivity.
Defined.

(** X17, while the routine serves. *)
Lemma routine_ends_only_by_shutdown_witness :
  let s := Scenario.after Scenario.serving in
  Scenario.reached s ∧ closing s = false ∧
  ∀ l s', Scenario.takes s l = Some s' → l ≠ Close →
    pc s' ≠ Exited ∧ ∀ e, pc s' ≠ Failed e.
Proof.
  intros s.
  assert (Scenario.reached s) as H
    by (apply (reached_after Scenario.serving); vm_compute; reflexivity).
  assert (closing s = false) as Hcl by (vm_compute; reflexivity).
  split; [exact H|]. split; [exact Hcl|].
  destruct (routine_ends_only_by_shutdown s H) as (_ & _ & Hopen).
  intros l s'. exact (Hopen l s' Hcl).
Defined.

(** X19, while the renewal of the scenario is in flight: a fetch that
    begins now is not received. *)
Lemma no_token_is_served_during_renewal_witness :
  let s := Scenario.after Scenario.renewal_in_flight in
  renewal_in_progress s = true ∧
  Scenario.takes s Send = None ∧
  (∀ c, Scenario.takes s (RoutineSelect c) = None) ∧
  ∀ l s' i, Scenario.takes s l = Some s' → not_accepted s i →
    not_accepted s' i ∨ ∃ e, result s' i = Some ("", Some e).
Proof.
  intros s.
  assert (renewal_in_progress s = true) as H by (vm_compute; reflexivity).
  split; [exact H|].
  exact (@no_token_is_served_during_renewal Scenario.surroundings s H).
Defined.

(** X20, for the second fetch of the scenario, which has returned t1. *)
Lemma authorization_header_is_an_issued_token_witness :
  let s := Scenario.after (Scenario.serving ++ Scenario.two_fetches) in
  Scenario.reached s ∧ result s 1 = Some ("t1", None) ∧
  authorization (newAuthenticatedGETRequest (λ _, None) "https://wekan.example"
                   ("t1", None) "/api/boards")
  = Some "Bearer t1" ∧
  ∃ r, r ∈ logins s ∧ "Bearer t1" = "Bearer " +:+ LoginResponse.Token r.
Proof.
  intros s.
  assert (Scenario.reached s) as H
    by (apply (reached_after (Scenario.serving ++ Scenario.two_fetches));
        vm_compute; reflexivity).
  assert (result s 1 = Some ("t1", None)) as Hres by (vm_compute; reflexivity).
  assert (authorization
            (newAuthenticatedGETRequest (λ _, None) "https://wekan.example"
               ("t1", None) "/api/boards")
          = Some "Bearer t1") as Hh by (vm_compute; reflexivity).
  split; [exact H|]. split; [exact Hres|]. split; [exact Hh|].
  refine (proj2 (@authorization_header_is_an_issued_token Scenario.surroundings
                   s 1%nat "t1" None "/api/boards" ("", None) H Hres _ _ _ Hh)).
  apply elem_of_cons. left. reflexivity.
Defined.
